(** * cv-filler: placeholder scanning, substitution and PDF export

    A shallow embedding of [cv-filler.py] and the properties of its
    scanner, value collector, substitutor and export pipeline.

    Modelling conventions.
    - A Python [str] is a list of characters; a character is a code point
      in the range 0..255 ([ascii]), compared by code point.
    - [re.compile(r"\[([^\]]+)\]")] is embedded as a matcher on character
      lists; [findall] and [search] follow the scanning discipline of the
      [re] module (leftmost match, resume after the match).
    - A paragraph holds, in order, runs and hyperlinks, and a hyperlink
      holds runs.  As in [python-docx] from 1.0 on, [paragraph.text] is the
      text of all of them, and [paragraph.runs] lists the runs that are
      children of the paragraph only.  (Before 1.0 the library leaves a
      hyperlink out of both: such a document is one without hyperlinks.)
      Assigning to [run.text] stores the text given; texts are taken to be
      free of carriage returns, which the library would store as line
      breaks.
    - A table is a list of rows, a row a list of cells, a cell a list of
      paragraphs.  Cells own their paragraphs: a merged cell, which
      [python-docx] lists once per grid position and whose paragraphs the
      fill therefore visits more than once, is not modelled; what a further
      visit does is stated where it matters.
    - A [dict] is an insertion-ordered association list.
    - The terminal, the clock and the two directories the program touches
      make up a [world]; a piece of the program is a function from worlds
      to an outcome (a value or an exception) and a world.  What
      [doc.save] and the converter do is left open, and so is which names
      the file system answers with an error when they are looked up or
      given to a file: they are parameters of the export.  [tempfile]
      settles on a name of its own choosing, and [os.remove] removes the
      file it is given. *)

From Stdlib Require Import String.
From Stdlib Require Import List Ascii Arith Lia Bool ListSet NArith ZArith.
From Stdlib Require Import Sorting.Mergesort Sorting.Sorted Permutation Orders.
From Stdlib Require DecimalString Decimal DecimalNat.
From Equations Require Import Equations.
Import ListNotations.


(* ===================================================================== *)
(** ** Strings *)
(* ===================================================================== *)

Definition str := list ascii.

(** Literals are written [py "..."]. *)
Definition py (s : String.string) : str := String.list_ascii_of_string s.
Arguments py s%_string.

Definition str_eq_dec : forall a b : str, {a = b} + {a <> b} :=
  list_eq_dec ascii_dec.

Definition LB : ascii := "["%char.
Definition RB : ascii := "]"%char.

(** [s.startswith(p)], returning what follows the prefix. *)
Fixpoint strip_prefix (p s : str) : option str :=
  match p, s with
  | [], _ => Some s
  | _ :: _, [] => None
  | a :: p', b :: s' => if (a =? b)%char then strip_prefix p' s' else None
  end.

(** [sub in s] *)
Fixpoint contains (sub s : str) : bool :=
  match strip_prefix sub s with
  | Some _ => true
  | None => match s with
            | [] => false
            | _ :: s' => contains sub s'
            end
  end.

Lemma strip_prefix_Some (p s r : str) :
  strip_prefix p s = Some r <-> s = p ++ r.
Proof.
  revert s; induction p as [|a p IH]; intros s; simpl.
  - split; [intros [= ->] | intros ->]; reflexivity.
  - destruct s as [|b s]; [split; discriminate|].
    destruct (Ascii.eqb_spec a b) as [->|Hab].
    + rewrite IH. split; [intros ->; reflexivity | intros [= ->]; reflexivity].
    + split; [discriminate | intros [= E _]; congruence].
Qed.

(** Pattern matching that remembers the equation, for the recursive
    definitions below. *)
Definition inspect {A : Type} (x : A) : {y : A | x = y} := exist _ x eq_refl.

(** [s.replace(old, new)]: occurrences of [old] are replaced left to right
    and do not overlap.  An empty [old] matches before every character and
    at the end of the string. *)
Equations? replace (old new s : str) : str by wf (length s) lt :=
  replace [] new [] := new ;
  replace [] new (c :: s) := new ++ c :: replace [] new s ;
  replace (o :: old') new [] := [] ;
  replace (o :: old') new (c :: s)
    with inspect (strip_prefix (o :: old') (c :: s)) := {
      | exist _ (Some rest) Hp := new ++ replace (o :: old') new rest ;
      | exist _ None _ := c :: replace (o :: old') new s }.
Proof.
  apply (proj1 (strip_prefix_Some (o :: old') (c :: s) rest)) in Hp.
  apply (f_equal (@length ascii)) in Hp.
  rewrite length_app in Hp; simpl in Hp; lia.
Qed.

Example replace_ex1 : replace (py "[A]") (py "x") (py "a[A][A]b[A") = py "axxb[A".
Proof. reflexivity. Qed.
Example replace_ex2 : replace (py "") (py "-") (py "ab") = py "-a-b-".
Proof. reflexivity. Qed.
Example replace_ex3 : replace (py "aa") (py "b") (py "aaa") = py "ba".
Proof. reflexivity. Qed.

(** [s.strip()]: whitespace is what [str.isspace] accepts among the code
    points below 256. *)
Definition isspace (c : ascii) : bool :=
  let n := N_of_ascii c in
  ((9 <=? n) && (n <=? 13) || (28 <=? n) && (n <=? 32)
   || (n =? 133) || (n =? 160))%N.

Fixpoint lstrip (s : str) : str :=
  match s with
  | c :: s' => if isspace c then lstrip s' else s
  | [] => []
  end.

Definition rstrip (s : str) : str := rev (lstrip (rev s)).

Definition strip (s : str) : str := rstrip (lstrip s).

(** [s.lower()] on code points below 256: the letters A-Z and the
    accented capitals 192..222 other than the multiplication sign 215. *)
Definition lower_char (c : ascii) : ascii :=
  let n := N_of_ascii c in
  if ((65 <=? n) && (n <=? 90)
      || (192 <=? n) && (n <=? 222) && negb (n =? 215))%N
  then ascii_of_N (n + 32) else c.

Definition lower (s : str) : str := map lower_char s.

(** Comparison of strings: lexicographic on code points. *)
Fixpoint str_compare (a b : str) : comparison :=
  match a, b with
  | [], [] => Eq
  | [], _ :: _ => Lt
  | _ :: _, [] => Gt
  | x :: a', y :: b' =>
      match Ascii.compare x y with
      | Eq => str_compare a' b'
      | o => o
      end
  end.

Definition str_leb (a b : str) : bool :=
  match str_compare a b with Gt => false | _ => true end.

(* ===================================================================== *)
(** ** The placeholder pattern *)
(* ===================================================================== *)

(** The group [([^\]]+)] is greedy: it takes the longest prefix free of
    [RB].  What it leaves is empty or begins with [RB]. *)
Fixpoint span_name (s : str) : str * str :=
  match s with
  | [] => ([], [])
  | c :: t =>
      if (c =? RB)%char then ([], s)
      else let (n, r) := span_name t in (c :: n, r)
  end.

(** [PLACEHOLDER_PATTERN.match(s)]: the captured name and the text after
    the match.  A shorter capture than the greedy one is followed by a
    character other than [RB], so backtracking never succeeds where the
    greedy capture fails. *)
Definition match_here (s : str) : option (str * str) :=
  match s with
  | c :: t =>
      if (c =? LB)%char then
        match span_name t with
        | ((_ :: _) as n, d :: r) => if (d =? RB)%char then Some (n, r) else None
        | _ => None
        end
      else None
  | [] => None
  end.

Lemma span_name_app (s : str) : s = fst (span_name s) ++ snd (span_name s).
Proof.
  induction s as [|c t IH]; simpl; [reflexivity|].
  destruct (c =? RB)%char; [reflexivity|].
  destruct (span_name t) as [n r]; simpl in *. now rewrite <- IH.
Qed.

Lemma match_here_Some (s n r : str) :
  match_here s = Some (n, r) -> s = LB :: n ++ RB :: r.
Proof.
  destruct s as [|c t]; simpl; [discriminate|].
  destruct (Ascii.eqb_spec c LB) as [->|]; [|discriminate].
  pose proof (span_name_app t) as E.
  destruct (span_name t) as [[|a n'] [|d r']]; try discriminate.
  destruct (Ascii.eqb_spec d RB) as [->|]; [|discriminate].
  intros [= <- <-]. simpl in E. now rewrite E at 1.
Qed.

(** [PLACEHOLDER_PATTERN.findall(s)]: the captures of the successive
    non-overlapping matches, leftmost first. *)
Equations? findall (s : str) : list str by wf (length s) lt :=
  findall [] := [] ;
  findall (c :: s) with inspect (match_here (c :: s)) := {
    | exist _ (Some (n, rest)) Hm := n :: findall rest ;
    | exist _ None _ := findall s }.
Proof.
  change (match_here (c :: s) = Some (n, rest)) in Hm.
  apply match_here_Some in Hm. injection Hm as _ ->.
  rewrite length_app; simpl; lia.
Qed.

(** [PLACEHOLDER_PATTERN.search(s)]: the first match, if any. *)
Fixpoint search (s : str) : option (str * str) :=
  match match_here s with
  | Some m => Some m
  | None => match s with
            | [] => None
            | _ :: s' => search s'
            end
  end.

Example findall_ex1 :
  findall (py "Dear [Company Name], ... [Date] [] [x") = [py "Company Name"; py "Date"].
Proof. reflexivity. Qed.
Example findall_ex2 : findall (py "[[a]b] []] [c]") = [py "[a"; py "c"].
Proof. reflexivity. Qed.

(* ===================================================================== *)
(** ** Documents *)
(* ===================================================================== *)

(** A run carries its text and its formatting; only the text is ever
    assigned to. *)
Record run := mkRun { run_text : str; run_style : nat }.

(** What a paragraph holds, in order: runs of its own, and hyperlinks,
    which hold runs of their own. *)
Inductive inline : Type :=
| InRun (r : run)
| InLink (link_runs : list run).

Record paragraph := mkPara { content : list inline }.

(** [paragraph.runs]: the runs that are children of the paragraph; the
    runs inside a hyperlink are not among them. *)
Definition runs (p : paragraph) : list run :=
  flat_map (fun i => match i with InRun r => [r] | InLink _ => [] end)
           (content p).

(** [run.text] and [hyperlink.text] *)
Definition inline_text (i : inline) : str :=
  match i with
  | InRun r => run_text r
  | InLink rs => concat (map run_text rs)
  end.

(** [paragraph.text]: the text of the runs and of the hyperlinks, in
    order. *)
Definition text (p : paragraph) : str :=
  concat (map inline_text (content p)).

(** Every run of the paragraph, in order, those of its hyperlinks
    included. *)
Definition all_runs (p : paragraph) : list run :=
  flat_map (fun i => match i with InRun r => [r] | InLink rs => rs end)
           (content p).

Record cell := mkCell { cell_paragraphs : list paragraph }.
Record row := mkRow { cells : list cell }.
Record table := mkTable { rows : list row }.
Record document := mkDoc { paragraphs : list paragraph; tables : list table }.

(** The paragraphs the two traversals visit, in the order they visit them:
    the body first, then table by table, row by row, cell by cell. *)
Definition table_paragraphs (t : table) : list paragraph :=
  flat_map (fun r => flat_map cell_paragraphs (cells r)) (rows t).

Definition all_paragraphs (doc : document) : list paragraph :=
  paragraphs doc ++ flat_map table_paragraphs (tables doc).

(* ===================================================================== *)
(** ** Sets of names and [sorted] *)
(* ===================================================================== *)

(** A [set] of strings is a duplicate-free list; its iteration order is not
    observed, [sorted] being the only consumer. *)
Definition pyset := set str.

(** [set(l)] *)
Definition set_of_list (l : list str) : pyset :=
  fold_left (fun acc x => set_add str_eq_dec x acc) l (empty_set str).

(** [s.update(t)] *)
Definition set_update (s t : pyset) : pyset := set_union str_eq_dec s t.

Module StrOrder <: TotalLeBool.
Definition t := str.
Definition leb := str_leb.
Lemma ascii_compare_refl (x : ascii) : Ascii.compare x x = Eq.
Proof. unfold Ascii.compare. apply N.compare_refl. Qed.
Lemma str_compare_antisym (a b : str) :
  str_compare b a = CompOpp (str_compare a b).
Proof.
  revert b; induction a as [|x a IH]; intros [|y b]; simpl; try reflexivity.
  rewrite (Ascii.compare_antisym x y).
  destruct (Ascii.compare y x); simpl; auto.
Qed.
Theorem leb_total : forall a1 a2, leb a1 a2 = true \/ leb a2 a1 = true.
Proof.
  intros a b. unfold leb, str_leb. rewrite (str_compare_antisym a b).
  destruct (str_compare a b); simpl; auto.
Qed.
End StrOrder.

Module StrSort := Sort StrOrder.

(** [sorted(s)] *)
Definition sorted (s : list str) : list str := StrSort.sort s.

(* ===================================================================== *)
(** ** The scanner *)
(* ===================================================================== *)

Definition extract_placeholders_from_text (t : str) : pyset :=
  set_of_list (findall t).

Definition scan_paragraphs (ps : list paragraph) (placeholders : pyset) : pyset :=
  fold_left
    (fun acc para => set_update acc (extract_placeholders_from_text (text para)))
    ps placeholders.

Definition extract_placeholders (doc : document) : list str :=
  let placeholders := empty_set str in
  let placeholders := scan_paragraphs (paragraphs doc) placeholders in
  let placeholders :=
    fold_left (fun acc table =>
      fold_left (fun acc row =>
        fold_left (fun acc cell => scan_paragraphs (cell_paragraphs cell) acc)
                  (cells row) acc)
        (rows table) acc)
      (tables doc) placeholders in
  sorted placeholders.

(* ===================================================================== *)
(** ** Dictionaries *)
(* ===================================================================== *)

(** A [dict] from names to strings keeps its keys in insertion order;
    assigning to a key that is present keeps its position. *)
Definition dict := list (str * str).

Fixpoint dict_get (k : str) (d : dict) : option str :=
  match d with
  | [] => None
  | (k', v) :: d' => if str_eq_dec k k' then Some v else dict_get k d'
  end.

Fixpoint dict_set (k v : str) (d : dict) : dict :=
  match d with
  | [] => [(k, v)]
  | (k', v') :: d' =>
      if str_eq_dec k k' then (k, v) :: d' else (k', v') :: dict_set k v d'
  end.

Definition keys (d : dict) : list str := map fst d.

(* ===================================================================== *)
(** ** The substitutor *)
(* ===================================================================== *)

(** [f"[{placeholder}]"] *)
Definition bracketed (placeholder : str) : str := LB :: placeholder ++ [RB].

(** The inner loop over [values.items()] for one run. *)
Definition replace_in_text (values : dict) (t : str) : str :=
  fold_left
    (fun t kv =>
       if contains (bracketed (fst kv)) t
       then replace (bracketed (fst kv)) (snd kv) t
       else t)
    values t.

Definition replace_in_run (values : dict) (r : run) : run :=
  mkRun (replace_in_text values (run_text r)) (run_style r).

(** The loop over [paragraph.runs], without the early return: the text of
    each run of the paragraph is assigned to, a hyperlink is not visited. *)
Definition replace_in_inline (values : dict) (i : inline) : inline :=
  match i with
  | InRun r => InRun (replace_in_run values r)
  | InLink rs => InLink rs
  end.

Definition replace_in_runs (values : dict) (p : paragraph) : paragraph :=
  mkPara (map (replace_in_inline values) (content p)).

Definition replace_in_paragraph (values : dict) (p : paragraph) : paragraph :=
  let full_text := text p in
  match search full_text with
  | None => p
  | Some _ => replace_in_runs values p
  end.

Definition fill_template (values : dict) (doc : document) : document :=
  mkDoc
    (map (replace_in_paragraph values) (paragraphs doc))
    (map (fun t => mkTable
       (map (fun r => mkRow
          (map (fun c => mkCell (map (replace_in_paragraph values) (cell_paragraphs c)))
               (cells r)))
          (rows t)))
       (tables doc)).

(* ===================================================================== *)
(** ** File names *)
(* ===================================================================== *)

(** The invalid characters, in the order the loop visits them; code 34 is
    the double quote. *)
Definition invalid_chars : str := py "<>:" ++ ["034"%char] ++ py "/\|?*".

Definition sanitize_filename (name : str) : str :=
  strip (fold_left (fun name char => replace [char] [] name) invalid_chars name).

(** [Path(name).stem]: the name without its last suffix; a name whose only
    dot is the first or the last character has no suffix. *)
Fixpoint drop_suffix (s : str) : option str :=
  match s with
  | [] => None
  | c :: s' =>
      match drop_suffix s' with
      | Some t => Some (c :: t)
      | None => if (c =? ".")%char then Some [] else None
      end
  end.

Definition path_stem (name : str) : str :=
  match drop_suffix name with
  | Some ((_ :: _) as st) =>
      if Nat.eqb (S (length st)) (length name) then name else st
  | _ => name
  end.

(** [f"{counter}"] *)
Definition str_of_nat (n : nat) : str :=
  py (DecimalString.NilEmpty.string_of_uint (Nat.to_uint n)).

(* ===================================================================== *)
(** ** The world: terminal, clock and the two directories *)
(* ===================================================================== *)

Inductive event :=
| Print (line : str)     (* [print(line)] *)
| Prompt (msg : str).    (* the prompt of [input(msg)] *)

(** A directory maps file names to contents. *)
Definition directory := list (str * str).

Definition dir_exists (name : str) (d : directory) : bool :=
  if in_dec str_eq_dec name (map fst d) then true else false.

Definition dir_remove (name : str) (d : directory) : directory :=
  filter (fun f => if str_eq_dec name (fst f) then false else true) d.

Definition dir_write (name content : str) (d : directory) : directory :=
  (name, content) :: dir_remove name d.

Definition dir_read (name : str) (d : directory) : option str :=
  dict_get name d.

Record world := mkWorld {
  stdin : list str;       (* the lines the user will type *)
  stdout : list event;    (* what was written so far, oldest first *)
  clock : str;            (* [datetime.now().strftime("%Y-%m-%d")] *)
  tmpdir : directory;     (* the directory of temporary files *)
  outdir : directory      (* [OUTPUTS_DIR] *)
}.

Inductive exn :=
| EOFError
| FileExistsError
| Error (what : str).

(** The outcome of running a piece of the program: a value, an exception,
    or a loop that did not finish within its fuel. *)
Inductive outcome (A : Type) :=
| Ret (a : A)
| Raise (e : exn)
| Diverge.
Arguments Ret {A} a.
Arguments Raise {A} e.
Arguments Diverge {A}.

Definition M (A : Type) : Type := world -> outcome A * world.

Definition ret {A} (a : A) : M A := fun w => (Ret a, w).

Definition bind {A B} (m : M A) (k : A -> M B) : M B :=
  fun w =>
    match m w with
    | (Ret a, w') => k a w'
    | (Raise e, w') => (Raise e, w')
    | (Diverge, w') => (Diverge, w')
    end.

Notation "x <- m ;; k" := (bind m (fun x => k))
  (at level 61, m at next level, right associativity).
Notation "m ;;; k" := (bind m (fun _ => k))
  (at level 61, right associativity).

Definition raise {A} (e : exn) : M A := fun w => (Raise e, w).

(** [try: body finally: cleanup].  The cleanup runs when the body returns
    or raises; an exception of the cleanup replaces the outcome of the
    body. *)
Definition try_finally {A} (body : M A) (cleanup : M unit) : M A :=
  fun w =>
    match body w with
    | (Diverge, w1) => (Diverge, w1)
    | (r, w1) =>
        match cleanup w1 with
        | (Ret _, w2) => (r, w2)
        | (Raise e, w2) => (Raise e, w2)
        | (Diverge, w2) => (Diverge, w2)
        end
    end.

Definition get_world : M world := fun w => (Ret w, w).
Definition put_world (w : world) : M unit := fun _ => (Ret tt, w).

Definition print (line : str) : M unit :=
  fun w => (Ret tt, mkWorld (stdin w) (stdout w ++ [Print line])
                            (clock w) (tmpdir w) (outdir w)).

(** [input(msg)]: writes the prompt and reads one line; [EOFError] when
    the input is exhausted. *)
Definition input (msg : str) : M str :=
  fun w =>
    let out := stdout w ++ [Prompt msg] in
    match stdin w with
    | line :: more =>
        (Ret line, mkWorld more out (clock w) (tmpdir w) (outdir w))
    | [] => (Raise EOFError, mkWorld [] out (clock w) (tmpdir w) (outdir w))
    end.

(** [datetime.now().strftime("%Y-%m-%d")] *)
Definition today : M str := fun w => (Ret (clock w), w).

Definition set_tmpdir (d : directory) : M unit :=
  fun w => (Ret tt, mkWorld (stdin w) (stdout w) (clock w) d (outdir w)).

Definition set_outdir (d : directory) : M unit :=
  fun w => (Ret tt, mkWorld (stdin w) (stdout w) (clock w) (tmpdir w) d).

(* ===================================================================== *)
(** ** The value collector *)
(* ===================================================================== *)

Definition NL : ascii := "010"%char.

Fixpoint prompt_loop (placeholders : list str) (values : dict) : M dict :=
  match placeholders with
  | [] => ret values
  | placeholder :: more =>
      value <-
        (if str_eq_dec (lower placeholder) (py "date") then
           value <- today ;;
           print (py "  " ++ placeholder ++ py ": " ++ value ++ py " (auto)") ;;;
           ret value
         else
           line <- input (py "  " ++ placeholder ++ py ": ") ;;
           ret (strip line)) ;;
      prompt_loop more (dict_set placeholder value values)
  end.

Definition prompt_for_values (placeholders : list str) : M dict :=
  print (NL :: py "Enter values for each field:") ;;;
  print (repeat "-"%char 40) ;;;
  prompt_loop placeholders [].

(** [values.get(k1) or values.get(k2) or ...]: the first operand that is
    neither [None] nor empty, else the last one. *)
Definition py_or (a b : option str) : option str :=
  match a with
  | Some (_ :: _) => a
  | _ => b
  end.

(** The company name [main] hands to [save_as_pdf]. *)
Definition company_name_of (values : dict) : str :=
  match py_or (py_or (py_or (dict_get (py "Company Name") values)
                            (dict_get (py "Company") values))
                     (dict_get (py "Employer") values))
              (Some [])
  with
  | Some s => s
  | None => []
  end.

Example path_stem_ex1 : path_stem (py "tmpab12.docx") = py "tmpab12".
Proof. reflexivity. Qed.
Example path_stem_ex2 : path_stem (py ".docx") = py ".docx".
Proof. reflexivity. Qed.
Example path_stem_ex3 : path_stem (py "a.b.docx") = py "a.b".
Proof. reflexivity. Qed.
Example path_stem_ex4 : path_stem (py "abc.") = py "abc.".
Proof. reflexivity. Qed.

(* ===================================================================== *)
(** ** The export pipeline *)
(* ===================================================================== *)

(** What [subprocess.run] can do: fail to start the converter, or report
    its exit status and error text.  The converter's effect on
    [OUTPUTS_DIR] is the file it may write there, named after the stem of
    its input. *)
Inductive soffice_outcome :=
| LaunchError (e : exn)
| Exited (returncode : Z) (stderr : str) (written : option str).

(** [safe_company] and [pdf_name], as computed at the top of
    [save_as_pdf]. *)
Definition safe_company_of (company_name : str) : str :=
  match company_name with
  | [] => py "Unknown"
  | _ :: _ => sanitize_filename company_name
  end.

Definition pdf_name_of (safe_company date_str : str) : str :=
  py "CoverLetter_" ++ safe_company ++ py "_" ++ date_str ++ py ".pdf".

Definition numbered_name (safe_company date_str : str) (counter : nat) : str :=
  py "CoverLetter_" ++ safe_company ++ py "_" ++ date_str ++ py "_"
     ++ str_of_nat counter ++ py ".pdf".

Section Pipeline.

(** The environment of one export: the name [tempfile] settles on, what
    [doc.save] and the converter do, and whether renaming onto an
    existing file replaces it or raises. *)
Variable rnd : str.
Variable docx_save : world -> document -> exn + str.
Variable soffice : world -> str -> soffice_outcome.
Variable rename_replaces : bool.

(** The errors of the file system, by the name of a file of
    [OUTPUTS_DIR].  [exists_error name] is the error, if any, that
    [Path.exists] lets through when it looks [name] up: not the absence of
    the file, which gives [False], but for one a name longer than the file
    system allows, where [pathlib] raises the [OSError] anew.
    [rename_error name] is the error, if any, with which the file system
    refuses to give a file the name [name]. *)
Variable exists_error : str -> option exn.
Variable rename_error : str -> option exn.

(** [(OUTPUTS_DIR / name).exists()] *)
Definition path_exists (name : str) : M bool :=
  w <- get_world ;;
  match exists_error name with
  | Some e => raise e
  | None => ret (dir_exists name (outdir w))
  end.

(** [tempfile.NamedTemporaryFile(suffix=".docx", delete=False)] *)
Definition named_temporary_file (suffix : str) : M str :=
  w <- get_world ;;
  let name := py "tmp" ++ rnd ++ suffix in
  set_tmpdir (dir_write name [] (tmpdir w)) ;;;
  ret name.

(** [doc.save(temp_docx)] *)
Definition doc_save (doc : document) (temp_docx : str) : M unit :=
  w <- get_world ;;
  match docx_save w doc with
  | inl e => raise e
  | inr bytes => set_tmpdir (dir_write temp_docx bytes (tmpdir w))
  end.

(** [subprocess.run([soffice, "--headless", "--convert-to", "pdf",
    "--outdir", OUTPUTS_DIR, temp_docx], ...)] *)
Definition subprocess_run (temp_docx : str) : M (Z * str) :=
  w <- get_world ;;
  match soffice w temp_docx with
  | LaunchError e => raise e
  | Exited returncode stderr written =>
      match written with
      | Some pdf =>
          set_outdir (dir_write (path_stem temp_docx ++ py ".pdf") pdf (outdir w))
      | None => ret tt
      end ;;;
      ret (returncode, stderr)
  end.

(** [src.rename(dst)] inside [OUTPUTS_DIR] *)
Definition rename (src dst : str) : M unit :=
  w <- get_world ;;
  match dir_read src (outdir w) with
  | None => raise (Error (py "FileNotFoundError"))
  | Some content =>
      match rename_error dst with
      | Some e => raise e
      | None =>
          if dir_exists dst (outdir w) && negb rename_replaces then
            raise FileExistsError
          else
            set_outdir (dir_write dst content (dir_remove src (outdir w)))
      end
  end.

(** [while final_pdf_path.exists(): ...] in the directory [d], one unit
    of fuel per test of the condition; the loop reads the directory and
    writes nothing. *)
Fixpoint free_name_loop (fuel : nat) (d : directory)
    (safe_company date_str pdf_name : str) (counter : nat) : outcome str :=
  match fuel with
  | O => Diverge
  | S fuel' =>
      match exists_error pdf_name with
      | Some e => Raise e
      | None =>
          if dir_exists pdf_name d then
            free_name_loop fuel' d safe_company date_str
              (numbered_name safe_company date_str counter) (S counter)
          else Ret pdf_name
      end
  end.

(** The loop that looks for a free name. *)
Definition free_name (safe_company date_str pdf_name : str) : M str :=
  fun w =>
    (free_name_loop (S (length (outdir w))) (outdir w)
       safe_company date_str pdf_name 1, w).

(** The body of the [try] block. *)
Definition convert_and_rename (doc : document)
    (safe_company date_str pdf_name temp_docx : str) : M (option str) :=
  doc_save doc temp_docx ;;;
  result <- subprocess_run temp_docx ;;
  if negb (Z.eqb (fst result) 0) then
    print (NL :: py "Error converting to PDF: " ++ snd result) ;;;
    ret None
  else
    let temp_pdf_name := path_stem temp_docx ++ py ".pdf" in
    taken <- path_exists pdf_name ;;
    final_pdf_name <-
      (if taken
       then free_name safe_company date_str pdf_name
       else ret pdf_name) ;;
    created <- path_exists temp_pdf_name ;;
    if created then
      rename temp_pdf_name final_pdf_name ;;;
      ret (Some final_pdf_name)
    else
      print (NL :: py "Error: PDF was not created.") ;;;
      ret None.

(** The [finally] block. *)
Definition remove_temp (temp_docx : str) : M unit :=
  w <- get_world ;;
  if dir_exists temp_docx (tmpdir w)
  then set_tmpdir (dir_remove temp_docx (tmpdir w))
  else ret tt.

Definition save_as_pdf (doc : document) (company_name : str)
  : M (option str) :=
  date_str <- today ;;
  let safe_company := safe_company_of company_name in
  let pdf_name := pdf_name_of safe_company date_str in
  temp_docx <- named_temporary_file (py ".docx") ;;
  try_finally
    (convert_and_rename doc safe_company date_str pdf_name temp_docx)
    (remove_temp temp_docx).


End Pipeline.

(* ===================================================================== *)
(** ** The menu and one round of [main] *)
(* ===================================================================== *)

(** The name [main] lists a template under:
    [template.stem.replace("[Template]_", "").replace("_", " ")]. *)
Definition display_name (stem : str) : str :=
  replace (py "_") (py " ") (replace (py "[Template]_") [] stem).

Definition is_digit (c : ascii) : bool :=
  let n := N_of_ascii c in ((48 <=? n) && (n <=? 57))%N.

Definition digit_value (c : ascii) : nat := N.to_nat (N_of_ascii c - 48).

(** The digits of a decimal literal as [int] reads them: decimal digits,
    with single underscores allowed between two digits.  [after_digit]
    tells whether the character before was a digit. *)
Fixpoint parse_digits (s : str) (acc : nat) (after_digit : bool) : option nat :=
  match s with
  | [] => if after_digit then Some acc else None
  | c :: s' =>
      if is_digit c then parse_digits s' (10 * acc + digit_value c) true
      else if (c =? "_")%char then
        if after_digit then parse_digits s' acc false else None
      else None
  end.

Definition count_digits (s : str) : nat := length (filter is_digit s).

(** What the selection comes to: [break], a template index, or one of the
    two messages followed by [continue]. *)
Inductive selection : Type :=
| Exit
| Chosen (idx : nat)
| Invalid_selection
| Invalid_input.

Section Menu.

(** [sys.get_int_max_str_digits()]: the longest run of digits [int]
    converts, 0 when there is no limit. *)
Variable max_str_digits : nat.

(** [int(s)] in base 10; [None] stands for [ValueError]. *)
Definition py_int (s : str) : option Z :=
  let t := strip s in
  let '(negative, body) :=
    match t with
    | c :: r =>
        if (c =? "-")%char then (true, r)
        else if (c =? "+")%char then (false, r)
        else (false, t)
    | [] => (false, [])
    end in
  match parse_digits body 0 false with
  | None => None
  | Some v =>
      if (0 <? max_str_digits) && (max_str_digits <? count_digits body)
      then None
      else Some (if negative then (- Z.of_nat v)%Z else Z.of_nat v)
  end.

(** The selection of [main], for the line typed at
    [Select template number: ] and the number of templates listed. *)
Definition select_template (line : str) (n_templates : nat) : selection :=
  let choice := lower (strip line) in
  if str_eq_dec choice (py "exit") then Exit
  else
    match py_int choice with
    | Some v =>
        let idx := (v - 1)%Z in
        if ((0 <=? idx) && (idx <? Z.of_nat n_templates))%Z
        then Chosen (Z.to_nat idx)
        else Invalid_selection
    | None => Invalid_input
    end.

End Menu.

Fixpoint print_each (lines : list str) : M unit :=
  match lines with
  | [] => ret tt
  | line :: more => print line ;;; print_each more
  end.

Section Round.

Variable rnd : str.
Variable docx_save : world -> document -> exn + str.
Variable soffice : world -> str -> soffice_outcome.
Variable rename_replaces : bool.
Variable exists_error : str -> option exn.
Variable rename_error : str -> option exn.
(** [str(OUTPUTS_DIR / name)] *)
Variable path_str : str -> str.

(** What [main] does with a loaded template, to the end of the round. *)
Definition process_template (doc : document) : M unit :=
  let placeholders := extract_placeholders doc in
  match placeholders with
  | [] => print (NL :: py "No placeholders found in this template.")
  | _ :: _ =>
      print (NL :: py "Found " ++ str_of_nat (length placeholders)
                ++ py " placeholder(s):") ;;;
      print_each (map (fun p => py "  - [" ++ p ++ py "]") placeholders) ;;;
      values <- prompt_for_values placeholders ;;
      let doc := fill_template values doc in
      let company_name := company_name_of values in
      print (NL :: py "Generating PDF...") ;;;
      pdf_path <- save_as_pdf rnd docx_save soffice rename_replaces
                    exists_error rename_error doc company_name ;;
      match pdf_path with
      | Some name => print (NL :: py "Saved: " ++ path_str name)
      | None => ret tt
      end ;;;
      print (NL :: repeat "-"%char 50)
  end.

End Round.

(* ===================================================================== *)
(** * Properties *)
(* ===================================================================== *)

(** ** The pattern *)

Lemma span_name_fst_no_RB (s : str) : ~ In RB (fst (span_name s)).
Proof.
  induction s as [|c t IH]; simpl; [tauto|].
  destruct (Ascii.eqb_spec c RB) as [->|Hc]; simpl; [tauto|].
  destruct (span_name t) as [n r]; simpl in *. intros [E|H]; auto.
Qed.

Lemma span_name_no_RB (n r : str) :
  ~ In RB n -> span_name (n ++ RB :: r) = (n, RB :: r).
Proof.
  induction n as [|c n IH]; simpl; intros Hn.
  - reflexivity.
  - destruct (Ascii.eqb_spec c RB) as [->|_]; [tauto|].
    rewrite IH by tauto. reflexivity.
Qed.

Lemma span_name_all (s : str) : ~ In RB s -> span_name s = (s, []).
Proof.
  induction s as [|c s IH]; simpl; intros Hn; [reflexivity|].
  destruct (Ascii.eqb_spec c RB) as [->|_]; [tauto|].
  rewrite IH by tauto. reflexivity.
Qed.

(** A match captures a non-empty name free of [RB]. *)
Lemma match_here_name (s n r : str) :
  match_here s = Some (n, r) -> n <> [] /\ ~ In RB n.
Proof.
  destruct s as [|c t]; simpl; [discriminate|].
  destruct (c =? LB)%char; [|discriminate].
  pose proof (span_name_fst_no_RB t) as Hn.
  destruct (span_name t) as [[|a n'] [|d r']]; try discriminate.
  destruct (d =? RB)%char; [|discriminate].
  intros [= <- <-]. split; [discriminate | exact Hn].
Qed.

Lemma match_here_token (n r : str) :
  n <> [] -> ~ In RB n -> match_here (LB :: n ++ RB :: r) = Some (n, r).
Proof.
  intros Hne Hn. simpl. rewrite span_name_no_RB by exact Hn.
  destruct n; [congruence|]. reflexivity.
Qed.

Lemma match_here_not_LB (c : ascii) (s : str) :
  c <> LB -> match_here (c :: s) = None.
Proof.
  intros Hc. simpl. destruct (Ascii.eqb_spec c LB); [contradiction | reflexivity].
Qed.

Lemma match_here_LB_RB (s : str) : match_here (LB :: RB :: s) = None.
Proof. reflexivity. Qed.

Lemma match_here_no_RB (s : str) : ~ In RB s -> match_here s = None.
Proof.
  destruct s as [|c t]; simpl; [reflexivity|]. intros Hn.
  destruct (c =? LB)%char; [|reflexivity].
  rewrite span_name_all by tauto. destruct t; reflexivity.
Qed.

Lemma findall_cons (c : ascii) (s : str) :
  findall (c :: s) =
  match match_here (c :: s) with
  | Some (n, rest) => n :: findall rest
  | None => findall s
  end.
Proof.
  simp findall.
  destruct (inspect (match_here (c :: s))) as [[[n r]|] H];
    simp findall; rewrite H; reflexivity.
Qed.

(** Induction along the scan: from a position either a match is consumed
    or one character is skipped. *)
Lemma scan_ind (P : str -> Prop) :
  P [] ->
  (forall c s n r, match_here (c :: s) = Some (n, r) -> P r -> P (c :: s)) ->
  (forall c s, match_here (c :: s) = None -> P s -> P (c :: s)) ->
  forall s, P s.
Proof.
  intros Hnil Hm Hs s.
  induction s as [s IH] using (induction_ltof1 _ (@length ascii)).
  unfold ltof in IH. destruct s as [|c s]; [exact Hnil|].
  destruct (match_here (c :: s)) as [[n r]|] eqn:E.
  - apply (Hm c s n r E). apply IH.
    apply match_here_Some in E. injection E as _ ->.
    simpl. rewrite length_app; simpl; lia.
  - apply (Hs c s E). apply IH. simpl; lia.
Qed.

Lemma findall_names (s n : str) :
  In n (findall s) -> n <> [] /\ ~ In RB n.
Proof.
  induction s as [|c s m r E IH|c s E IH] using scan_ind.
  - simpl. tauto.
  - rewrite findall_cons, E. intros [<-|H]; [exact (match_here_name _ _ _ E) | auto].
  - rewrite findall_cons, E. exact IH.
Qed.

Lemma findall_no_RB (s : str) : ~ In RB s -> findall s = [].
Proof.
  induction s as [|c s IH]; intros Hn; [reflexivity|].
  rewrite findall_cons, match_here_no_RB by exact Hn.
  apply IH. simpl in Hn; tauto.
Qed.

Lemma search_cons (c : ascii) (s : str) :
  search (c :: s) =
  match match_here (c :: s) with
  | Some m => Some m
  | None => search s
  end.
Proof. reflexivity. Qed.

Lemma search_findall (s : str) : search s = None <-> findall s = [].
Proof.
  induction s as [|c s m r E IH|c s E IH] using scan_ind.
  - simpl. tauto.
  - rewrite findall_cons, search_cons, E. split; intros H; discriminate H.
  - rewrite findall_cons, search_cons, E. exact IH.
Qed.

(** ** The order on strings *)

Lemma ascii_compare_lt_trans (x y z : ascii) :
  Ascii.compare x y = Lt -> Ascii.compare y z = Lt -> Ascii.compare x z = Lt.
Proof.
  unfold Ascii.compare. rewrite !N.compare_lt_iff. apply N.lt_trans.
Qed.

Lemma str_compare_eq (a b : str) : str_compare a b = Eq -> a = b.
Proof.
  revert b; induction a as [|x a IH]; intros [|y b]; simpl; try discriminate.
  - reflexivity.
  - destruct (Ascii.compare x y) eqn:E; try discriminate.
    apply Ascii.compare_eq_iff in E. intros H. f_equal; auto.
Qed.

Lemma str_compare_refl (a : str) : str_compare a a = Eq.
Proof.
  induction a as [|x a IH]; simpl; [reflexivity|].
  now rewrite StrOrder.ascii_compare_refl.
Qed.

Lemma str_compare_lt_trans (a b c : str) :
  str_compare a b = Lt -> str_compare b c = Lt -> str_compare a c = Lt.
Proof.
  revert b c; induction a as [|x a IH]; intros [|y b] [|z c]; simpl;
    try discriminate; try reflexivity.
  destruct (Ascii.compare x y) eqn:Exy; try discriminate;
    destruct (Ascii.compare y z) eqn:Eyz; try discriminate; intros H1 H2.
  - apply Ascii.compare_eq_iff in Exy, Eyz. subst.
    rewrite StrOrder.ascii_compare_refl. eauto.
  - apply Ascii.compare_eq_iff in Exy. subst. now rewrite Eyz.
  - apply Ascii.compare_eq_iff in Eyz. subst. now rewrite Exy.
  - now rewrite (ascii_compare_lt_trans _ _ _ Exy Eyz).
Qed.

Lemma str_leb_trans : Transitive (fun a b => is_true (str_leb a b)).
Proof.
  intros a b c. unfold str_leb, is_true.
  destruct (str_compare a b) eqn:Eab; try discriminate;
    destruct (str_compare b c) eqn:Ebc; try discriminate; intros _ _.
  - apply str_compare_eq in Eab, Ebc. subst. now rewrite str_compare_refl.
  - apply str_compare_eq in Eab. subst. now rewrite Ebc.
  - apply str_compare_eq in Ebc. subst. now rewrite Eab.
  - now rewrite (str_compare_lt_trans _ _ _ Eab Ebc).
Qed.

(** ** Sets and [sorted] *)

Lemma set_of_list_acc (l : list str) (acc : pyset) :
  let s := fold_left (fun acc x => set_add str_eq_dec x acc) l acc in
  (forall n, In n s <-> In n acc \/ In n l) /\ (NoDup acc -> NoDup s).
Proof.
  revert acc; induction l as [|x l IH]; intros acc; simpl.
  - split; [intros n; tauto | auto].
  - destruct (IH (set_add str_eq_dec x acc)) as [Hin Hnd]. split.
    + intros n. rewrite Hin, set_add_iff. intuition congruence.
    + intros H. apply Hnd. now apply set_add_nodup.
Qed.

Lemma set_of_list_In (l : list str) (n : str) : In n (set_of_list l) <-> In n l.
Proof.
  unfold set_of_list. rewrite (proj1 (set_of_list_acc l (empty_set str))).
  simpl. tauto.
Qed.

Lemma set_of_list_NoDup (l : list str) : NoDup (set_of_list l).
Proof. apply (proj2 (set_of_list_acc l (empty_set str))). constructor. Qed.

Lemma sorted_In (s : list str) (n : str) : In n (sorted s) <-> In n s.
Proof.
  split; apply Permutation_in;
    [apply Permutation_sym|]; apply StrSort.Permuted_sort.
Qed.

Lemma sorted_NoDup (s : list str) : NoDup s -> NoDup (sorted s).
Proof. apply Permutation_NoDup, StrSort.Permuted_sort. Qed.

Lemma sorted_StronglySorted (s : list str) :
  StronglySorted (fun a b => str_leb a b = true) (sorted s).
Proof. apply (StrSort.StronglySorted_sort s str_leb_trans). Qed.

(** A sorted list without duplicates is strictly increasing. *)
Lemma sorted_strict (l : list str) :
  StronglySorted (fun a b => str_leb a b = true) l -> NoDup l ->
  StronglySorted (fun a b => str_compare a b = Lt) l.
Proof.
  induction 1 as [|a l Hs IH Ha]; intros Hnd; constructor.
  - apply IH. now inversion Hnd.
  - rewrite Forall_forall in *. intros b Hb. specialize (Ha b Hb).
    unfold str_leb in Ha. destruct (str_compare a b) eqn:E; try discriminate.
    + apply str_compare_eq in E. subst. inversion Hnd; contradiction.
    + reflexivity.
Qed.

(** ** Folding a scan over a list *)

Section FoldScan.
Context {X : Type} (F : pyset -> X -> pyset) (P : X -> str -> Prop).
Hypothesis F_In : forall acc x n, In n (F acc x) <-> In n acc \/ P x n.
Hypothesis F_NoDup : forall acc x, NoDup acc -> NoDup (F acc x).

Lemma fold_scan_In (xs : list X) (acc : pyset) (n : str) :
  In n (fold_left F xs acc) <-> In n acc \/ exists x, In x xs /\ P x n.
Proof.
  revert acc; induction xs as [|x xs IH]; intros acc; simpl.
  - split; [auto | intros [H|(x & [] & _)]; exact H].
  - rewrite IH, F_In. split.
    + intros [[H|H]|(y & Hy & H)]; eauto.
    + intros [H|(y & [<-|Hy] & H)]; eauto.
Qed.

Lemma fold_scan_NoDup (xs : list X) (acc : pyset) :
  NoDup acc -> NoDup (fold_left F xs acc).
Proof. revert acc; induction xs as [|x xs IH]; simpl; auto. Qed.
End FoldScan.

(** ** The scanner *)

(** A text has no bracket pair when no [LB] is followed, however far, by
    an [RB]. *)
Definition no_bracket_pair (t : str) : Prop :=
  forall a b c, t <> a ++ LB :: b ++ RB :: c.

Lemma findall_nonempty_pair (s : str) :
  findall s <> [] -> exists a n r, s = a ++ LB :: n ++ RB :: r.
Proof.
  induction s as [|c s m r E IH|c s E IH] using scan_ind.
  - intros H. now contradiction H.
  - intros _. exists [], m, r. now apply match_here_Some.
  - rewrite findall_cons, E. intros H.
    destruct (IH H) as (a & n & r & ->). now exists (c :: a), n, r.
Qed.

Lemma findall_no_pair (t : str) : no_bracket_pair t -> findall t = [].
Proof.
  intros H. destruct (findall t) eqn:E; [reflexivity|].
  destruct (findall_nonempty_pair t) as (a & n & r & Ht);
    [rewrite E; discriminate | now apply H in Ht].
Qed.

Definition found_in (ps : list paragraph) (n : str) : Prop :=
  exists p, In p ps /\ In n (findall (text p)).

Lemma set_update_In (s t : pyset) (n : str) :
  In n (set_update s t) <-> In n s \/ In n t.
Proof. apply set_union_iff. Qed.

Lemma scan_paragraphs_In (ps : list paragraph) (acc : pyset) (n : str) :
  In n (scan_paragraphs ps acc) <-> In n acc \/ found_in ps n.
Proof.
  unfold scan_paragraphs, found_in.
  apply (fold_scan_In _ (fun p n => In n (findall (text p)))).
  intros a p m. unfold extract_placeholders_from_text.
  now rewrite set_update_In, set_of_list_In.
Qed.

Lemma scan_paragraphs_NoDup (ps : list paragraph) (acc : pyset) :
  NoDup acc -> NoDup (scan_paragraphs ps acc).
Proof.
  apply fold_scan_NoDup. intros a p Ha.
  apply set_union_nodup; [exact Ha | apply set_of_list_NoDup].
Qed.

Lemma found_in_app (ps qs : list paragraph) (n : str) :
  found_in (ps ++ qs) n <-> found_in ps n \/ found_in qs n.
Proof.
  unfold found_in. split.
  - intros (p & Hp & H). apply in_app_or in Hp. destruct Hp; eauto.
  - intros [(p & Hp & H)|(p & Hp & H)]; exists p; split; auto;
      apply in_or_app; auto.
Qed.

Lemma found_in_flat_map {X : Type} (f : X -> list paragraph) (xs : list X) (n : str) :
  found_in (flat_map f xs) n <-> exists x, In x xs /\ found_in (f x) n.
Proof.
  unfold found_in. split.
  - intros (p & Hp & H). apply in_flat_map in Hp. destruct Hp as (x & Hx & Hp).
    eauto.
  - intros (x & Hx & p & Hp & H). exists p. split; [|exact H].
    apply in_flat_map. eauto.
Qed.

Lemma extract_placeholders_In (doc : document) (n : str) :
  In n (extract_placeholders doc) <-> found_in (all_paragraphs doc) n.
Proof.
  unfold extract_placeholders, all_paragraphs. rewrite sorted_In.
  rewrite (fold_scan_In _ (fun t => found_in (table_paragraphs t))).
  - rewrite scan_paragraphs_In, found_in_app, found_in_flat_map.
    simpl. tauto.
  - intros acc t m. unfold table_paragraphs.
    rewrite (fold_scan_In _ (fun r => found_in (flat_map cell_paragraphs (cells r)))).
    + now rewrite found_in_flat_map.
    + intros acc' r k.
      rewrite (fold_scan_In _ (fun c => found_in (cell_paragraphs c))).
      * now rewrite found_in_flat_map.
      * intros acc'' c j. apply scan_paragraphs_In.
Qed.

Lemma extract_placeholders_NoDup (doc : document) :
  NoDup (extract_placeholders doc).
Proof.
  unfold extract_placeholders. apply sorted_NoDup.
  apply fold_scan_NoDup.
  - intros acc t Ha. apply fold_scan_NoDup; [|exact Ha].
    intros acc' r Ha'. apply fold_scan_NoDup; [|exact Ha'].
    intros acc'' c Ha''. now apply scan_paragraphs_NoDup.
  - apply scan_paragraphs_NoDup. constructor.
Qed.

Lemma no_LB_no_bracket_pair (t : str) : ~ In LB t -> no_bracket_pair t.
Proof.
  intros H a b c ->. apply H. apply in_or_app. right. now left.
Qed.

Definition doc_plain : document :=
  mkDoc [mkPara [InRun (mkRun (py "Dear Sir") 0); InRun (mkRun (py " or Madam") 1)]]
        [mkTable [mkRow [mkCell [mkPara [InRun (mkRun (py "n/a]") 0)]]]]].

Definition doc_letter : document :=
  mkDoc [mkPara [InRun (mkRun (py "Dear [Company Name], ") 0);
                 InLink [mkRun (py "acme.example") 3];
                 InRun (mkRun (py "[Date]") 1)];
         mkPara [InRun (mkRun (py "re: [Role] at [Company Name]") 0)]]
        [mkTable [mkRow [mkCell [mkPara [InRun (mkRun (py "[Date] [") 0); InRun (mkRun (py "]") 0)]];
                         mkCell [mkPara [InRun (mkRun (py "[Ad") 0); InRun (mkRun (py "dress]") 2)]]]]].

Example extract_placeholders_letter :
  extract_placeholders doc_letter
  = [py "Address"; py "Company Name"; py "Date"; py "Role"].
Proof. vm_compute. reflexivity. Qed.

(** ** [in] and [replace] *)

Lemma contains_cons (sub : str) (c : ascii) (s : str) :
  contains sub (c :: s) =
  match strip_prefix sub (c :: s) with
  | Some _ => true
  | None => contains sub s
  end.
Proof. reflexivity. Qed.

Lemma contains_true (sub s : str) :
  contains sub s = true <-> exists pre post, s = pre ++ sub ++ post.
Proof.
  induction s as [|c s IH].
  - simpl. destruct (strip_prefix sub []) as [l|] eqn:E.
    + apply strip_prefix_Some in E. split; [intros _|reflexivity].
      now exists [], l.
    + split; [discriminate|]. intros (pre & post & H).
      destruct pre; [|discriminate H]. simpl in H.
      apply strip_prefix_Some in H. congruence.
  - rewrite contains_cons. destruct (strip_prefix sub (c :: s)) as [l|] eqn:E.
    + apply strip_prefix_Some in E. split; [intros _|reflexivity].
      now exists [], l.
    + rewrite IH. split.
      * intros (pre & post & ->). now exists (c :: pre), post.
      * intros (pre & post & H). destruct pre as [|c' pre].
        -- simpl in H. apply strip_prefix_Some in H. congruence.
        -- injection H as _ ->. now exists pre, post.
Qed.

Lemma contains_false (sub s : str) :
  contains sub s = false <-> forall pre post, s <> pre ++ sub ++ post.
Proof.
  split.
  - intros H pre post E. assert (contains sub s = true) by
      (apply contains_true; eauto). congruence.
  - intros H. destruct (contains sub s) eqn:E; [|reflexivity].
    apply contains_true in E. destruct E as (pre & post & E). now apply H in E.
Qed.

Lemma replace_nil (o : ascii) (old new : str) : replace (o :: old) new [] = [].
Proof. now simp replace. Qed.

Lemma replace_cons (o : ascii) (old new : str) (c : ascii) (s : str) :
  replace (o :: old) new (c :: s) =
  match strip_prefix (o :: old) (c :: s) with
  | Some rest => new ++ replace (o :: old) new rest
  | None => c :: replace (o :: old) new s
  end.
Proof.
  simp replace.
  destruct (inspect (strip_prefix (o :: old) (c :: s))) as [[r|] H];
    simp replace; rewrite H; reflexivity.
Qed.

(** A character at which [old] does not start is copied. *)
Lemma replace_skip (old new : str) (c : ascii) (s : str) :
  old <> [] -> strip_prefix old (c :: s) = None ->
  replace old new (c :: s) = c :: replace old new s.
Proof.
  destruct old as [|o old]; [congruence|]. intros _ H.
  now rewrite replace_cons, H.
Qed.

(** An occurrence at the front is replaced and the scan resumes after it. *)
Lemma replace_hit (old new s : str) :
  old <> [] -> replace old new (old ++ s) = new ++ replace old new s.
Proof.
  destruct old as [|o old]; [congruence|]. intros _.
  change ((o :: old) ++ s) with (o :: old ++ s).
  rewrite replace_cons.
  assert (E : strip_prefix (o :: old) (o :: old ++ s) = Some s)
    by now apply strip_prefix_Some.
  now rewrite E.
Qed.

Lemma strip_prefix_head (p : str) (c : ascii) (s : str) :
  hd_error p <> Some c -> p <> [] -> strip_prefix p (c :: s) = None.
Proof.
  destruct p as [|a p]; [congruence|]. simpl. intros H _.
  destruct (Ascii.eqb_spec a c); [congruence | reflexivity].
Qed.

(** Without an occurrence nothing is replaced. *)
Lemma replace_absent (old new s : str) :
  old <> [] -> contains old s = false -> replace old new s = s.
Proof.
  intros Ho. induction s as [|c s IH].
  - destruct old; [congruence|]. intros _. apply replace_nil.
  - rewrite contains_cons.
    destruct (strip_prefix old (c :: s)) eqn:E; [discriminate|].
    intros H. rewrite replace_skip by assumption. now rewrite IH.
Qed.

(** ** Sanitizing the company name *)

Definition is_invalid (c : ascii) : bool := existsb (Ascii.eqb c) invalid_chars.

Lemma replace_char_filter (c : ascii) (s : str) :
  replace [c] [] s = filter (fun x => negb (c =? x)%char) s.
Proof.
  induction s as [|x s IH]; [apply replace_nil|].
  rewrite replace_cons. simpl.
  destruct (c =? x)%char; simpl; now rewrite IH.
Qed.

Lemma remove_chars_filter (cs : str) (name : str) :
  fold_left (fun name char => replace [char] [] name) cs name
  = filter (fun x => negb (existsb (Ascii.eqb x) cs)) name.
Proof.
  revert name; induction cs as [|c cs IH]; intros name; simpl.
  - induction name as [|x name IHn]; simpl; congruence.
  - rewrite IH, replace_char_filter.
    induction name as [|x name IHn]; simpl; [reflexivity|].
    rewrite (Ascii.eqb_sym x c).
    destruct (c =? x)%char; simpl; [exact IHn|].
    destruct (existsb (Ascii.eqb x) cs); simpl; [exact IHn|]. now rewrite IHn.
Qed.

Lemma sanitize_filename_filter (name : str) :
  sanitize_filename name = strip (filter (fun x => negb (is_invalid x)) name).
Proof. unfold sanitize_filename. now rewrite remove_chars_filter. Qed.

Lemma lstrip_suffix (s : str) : exists ws, s = ws ++ lstrip s.
Proof.
  induction s as [|c s [ws IH]]; simpl; [now exists []|].
  destruct (isspace c); [|now exists []].
  exists (c :: ws). simpl. now rewrite <- IH.
Qed.

Lemma lstrip_In (s : str) (c : ascii) : In c (lstrip s) -> In c s.
Proof.
  destruct (lstrip_suffix s) as [ws E]. intros H. rewrite E.
  apply in_or_app. now right.
Qed.

Lemma strip_In (s : str) (c : ascii) : In c (strip s) -> In c s.
Proof.
  unfold strip, rstrip. rewrite <- in_rev. intros H.
  apply lstrip_In in H. rewrite <- in_rev in H. now apply lstrip_In.
Qed.

Lemma lstrip_head (s : str) (c : ascii) (t : str) :
  lstrip s = c :: t -> isspace c = false.
Proof.
  induction s as [|x s IH]; simpl; [discriminate|].
  destruct (isspace x) eqn:E; [exact IH|]. now intros [= <- _].
Qed.

Lemma lstrip_fixed (s : str) :
  (forall c t, s = c :: t -> isspace c = false) -> lstrip s = s.
Proof.
  destruct s as [|c t]; [reflexivity|]. intros H. simpl.
  now rewrite (H c t eq_refl).
Qed.

(** What [strip] returns neither begins nor ends with whitespace. *)
Lemma strip_trimmed (s : str) :
  (forall c t, strip s = c :: t -> isspace c = false) /\
  (forall c t, strip s = t ++ [c] -> isspace c = false).
Proof.
  unfold strip, rstrip. split.
  - intros c t H.
    destruct (lstrip_suffix (rev (lstrip s))) as [ws E].
    apply (f_equal (@rev ascii)) in E. rewrite rev_involutive, rev_app_distr in E.
    rewrite H in E. simpl in E. exact (lstrip_head s _ _ E).
  - intros c t H. apply (f_equal (@rev ascii)) in H.
    rewrite rev_involutive, rev_app_distr in H. simpl in H.
    now apply lstrip_head in H.
Qed.

(** No invalid character survives, the other characters keep their order,
    and the result is trimmed. *)
Lemma sanitize_filename_valid (name : str) (c : ascii) :
  In c (sanitize_filename name) -> In c name /\ is_invalid c = false.
Proof.
  rewrite sanitize_filename_filter. intros H. apply strip_In in H.
  apply filter_In in H. destruct H as [H1 H2]. split; [exact H1|].
  now destruct (is_invalid c).
Qed.

Lemma sanitize_filename_all_invalid (name : str) :
  Forall (fun c => is_invalid c = true) name -> sanitize_filename name = [].
Proof.
  intros H. rewrite sanitize_filename_filter.
  replace (filter (fun x => negb (is_invalid x)) name) with (@nil ascii);
    [reflexivity|].
  induction H as [|c name Hc _ IH]; simpl; [reflexivity|]. now rewrite Hc.
Qed.

(** A non-empty name made of invalid characters only is sanitized to the
    empty string, and the fallback to [Unknown] is not taken. *)
Lemma safe_company_all_invalid (name : str) :
  name <> [] -> Forall (fun c => is_invalid c = true) name ->
  safe_company_of name = [].
Proof.
  destruct name as [|c name]; [congruence|]. intros _ H.
  now apply sanitize_filename_all_invalid.
Qed.

Example sanitize_acme :
  sanitize_filename (py " Acme/Corp:Inc ") = py "AcmeCorpInc".
Proof. reflexivity. Qed.

Example safe_company_empty : safe_company_of [] = py "Unknown".
Proof. reflexivity. Qed.

(** C1.  The company name ["???"] is not empty, so [save_as_pdf] sanitizes
    it instead of falling back: the company component of the file name is
    the empty string, not [Unknown]. *)
Theorem C1_all_invalid_company_is_empty :
  safe_company_of (py "???") = []
  /\ safe_company_of (py "???") <> py "Unknown"
  /\ pdf_name_of (safe_company_of (py "???")) (py "2024-01-01")
     = py "CoverLetter__2024-01-01.pdf".
Proof.
  assert (E : safe_company_of (py "???") = []) by (vm_compute; reflexivity).
  rewrite E. split; [reflexivity|]. split; [discriminate | reflexivity].
Qed.

(** ** The substitutor *)

(** The invariant of a placeholder name: non-empty and free of [RB]. *)
Definition valid_name (k : str) : Prop := k <> [] /\ ~ In RB k.

Lemma bracketed_nonempty (k : str) : bracketed k <> [].
Proof. discriminate. Qed.

Lemma bracketed_token (k r : str) : bracketed k ++ r = LB :: k ++ RB :: r.
Proof. unfold bracketed. simpl. now rewrite <- app_assoc. Qed.

(** The test [bracketed in run.text] guards a replacement that would
    change nothing without it. *)
Lemma guarded_replace (old new t : str) :
  old <> [] ->
  (if contains old t then replace old new t else t) = replace old new t.
Proof.
  intros Ho. destruct (contains old t) eqn:E; [reflexivity|].
  symmetry. now apply replace_absent.
Qed.

Lemma replace_in_text_nil (t : str) : replace_in_text [] t = t.
Proof. reflexivity. Qed.

Lemma replace_in_text_cons (k v : str) (values : dict) (t : str) :
  replace_in_text ((k, v) :: values) t
  = replace_in_text values (replace (bracketed k) v t).
Proof.
  unfold replace_in_text. simpl.
  now rewrite guarded_replace by apply bracketed_nonempty.
Qed.

Lemma span_name_RB (s : str) :
  In RB s -> exists n r, span_name s = (n, RB :: r).
Proof.
  induction s as [|c s IH]; simpl; [tauto|]. intros H.
  destruct (Ascii.eqb_spec c RB) as [->|Hc]; [now exists [], s|].
  destruct H as [H|H]; [congruence|].
  destruct (IH H) as (n & r & ->). now exists (c :: n), r.
Qed.

(** An [LB] followed by a character other than [RB] and, later, by an
    [RB] starts a match. *)
Lemma match_here_open (c : ascii) (t : str) :
  c <> RB -> In RB t -> match_here (LB :: c :: t) <> None.
Proof.
  intros Hc Ht. simpl.
  destruct (Ascii.eqb_spec c RB) as [|_]; [contradiction|].
  destruct (span_name_RB _ Ht) as (n & r & ->). discriminate.
Qed.

Lemma findall_open (a : str) (c : ascii) (t : str) :
  c <> RB -> In RB t -> findall (a ++ LB :: c :: t) <> [].
Proof.
  intros Hc Ht. induction a as [|x a IH]; simpl; rewrite findall_cons.
  - pose proof (match_here_open _ _ Hc Ht) as H.
    destruct (match_here (LB :: c :: t)) as [[n r]|]; [discriminate | congruence].
  - destruct (match_here (x :: a ++ LB :: c :: t)) as [[n r]|];
      [discriminate | exact IH].
Qed.

(** The token of a valid name cannot occur in a text the pattern does not
    match. *)
Lemma findall_nil_no_token (k s : str) :
  valid_name k -> findall s = [] -> contains (bracketed k) s = false.
Proof.
  intros [Hne Hk] Hs. apply contains_false. intros pre post E.
  destruct k as [|c k]; [congruence|].
  apply (findall_open pre c (k ++ RB :: post)).
  - intros ->. apply Hk. now left.
  - apply in_or_app. right. now left.
  - rewrite <- Hs, E. f_equal. unfold bracketed. simpl.
    now rewrite <- app_assoc.
Qed.

Lemma contains_app (sub a s b : str) :
  contains sub s = true -> contains sub (a ++ s ++ b) = true.
Proof.
  rewrite !contains_true. intros (pre & post & ->).
  exists (a ++ pre), (post ++ b). now rewrite <- !app_assoc.
Qed.

Lemma map_fixed {A : Type} (f : A -> A) (l : list A) :
  (forall x, In x l -> f x = x) -> map f l = l.
Proof.
  intros H. rewrite <- (map_id l) at 2. now apply map_ext_in.
Qed.

(** ** Runs, hyperlinks and the text of a paragraph *)

Lemma in_runs (p : paragraph) (r : run) :
  In r (runs p) <-> In (InRun r) (content p).
Proof.
  unfold runs. rewrite in_flat_map. split.
  - intros ([r'|rs] & Hi & Hr); simpl in Hr; [|destruct Hr].
    destruct Hr as [<-|[]]. exact Hi.
  - intros H. exists (InRun r). split; [exact H | now left].
Qed.

Lemma inline_in_text (p : paragraph) (i : inline) :
  In i (content p) -> exists pre post, text p = pre ++ inline_text i ++ post.
Proof.
  intros Hi. apply in_split in Hi. destruct Hi as (c1 & c2 & E).
  unfold text. rewrite E, map_app, concat_app. simpl. eauto.
Qed.

Lemma runs_replace_in_runs (values : dict) (p : paragraph) :
  runs (replace_in_runs values p) = map (replace_in_run values) (runs p).
Proof.
  unfold runs, replace_in_runs. simpl.
  induction (content p) as [|[r|rs] c IH]; simpl; [reflexivity| |exact IH].
  now rewrite IH.
Qed.

(** What a run of the paragraph holds, the text of the paragraph holds. *)
Lemma contains_run (sub : str) (p : paragraph) (r : run) :
  In r (runs p) -> contains sub (run_text r) = true ->
  contains sub (text p) = true.
Proof.
  intros Hr H. apply in_runs, inline_in_text in Hr.
  destruct Hr as (pre & post & ->). now apply contains_app.
Qed.

Lemma replace_in_text_absent (values : dict) (t : str) :
  (forall k, In k (keys values) -> contains (bracketed k) t = false) ->
  replace_in_text values t = t.
Proof.
  revert t; induction values as [|[k v] values IH]; intros t H; [reflexivity|].
  rewrite replace_in_text_cons.
  rewrite replace_absent; [|apply bracketed_nonempty|apply H; now left].
  apply IH. intros k' Hk'. apply H. now right.
Qed.

(** C4.  For every paragraph and every Value Set, whose keys are
    placeholder names (non-empty, without a closing bracket), the early
    return of [replace_in_paragraph] changes nothing: the paragraph it
    produces is the one the loop over the runs produces on its own, run by
    run and text by text. *)
Theorem C4_short_circuit_is_neutral (values : dict) (p : paragraph) :
  Forall valid_name (keys values) ->
  replace_in_paragraph values p = replace_in_runs values p
  /\ map run_text (runs (replace_in_paragraph values p))
     = map (fun r => replace_in_text values (run_text r)) (runs p).
Proof.
  intros Hk.
  assert (E : replace_in_paragraph values p = replace_in_runs values p).
  { unfold replace_in_paragraph. destruct (search (text p)) eqn:Es; [reflexivity|].
    apply search_findall in Es. unfold replace_in_runs.
    rewrite map_fixed; [now destruct p|].
    intros [[t st]|rs] Hi; [|reflexivity].
    unfold replace_in_inline, replace_in_run. simpl. do 2 f_equal.
    apply replace_in_text_absent. intros k Hin.
    rewrite Forall_forall in Hk.
    pose proof (findall_nil_no_token _ _ (Hk k Hin) Es) as Hno.
    destruct (contains (bracketed k) t) eqn:Ec; [|reflexivity].
    apply in_runs in Hi.
    rewrite (contains_run (bracketed k) p _ Hi Ec) in Hno. discriminate. }
  split; [exact E|]. rewrite E, runs_replace_in_runs.
  rewrite map_map. reflexivity.
Qed.

Definition para_unmatched : paragraph :=
  mkPara [InRun (mkRun (py "[] and ") 0); InLink [mkRun (py "B") 2];
          InRun (mkRun (py "A] or [") 1)].

Lemma C4_short_circuit_witness :
  replace_in_paragraph [(py "A", py "v")] para_unmatched
  = replace_in_runs [(py "A", py "v")] para_unmatched.
Proof.
  apply (C4_short_circuit_is_neutral [(py "A", py "v")] para_unmatched).
  repeat constructor; [discriminate|].
  simpl. intros [H|[]]. discriminate H.
Defined.

(** The hypothesis on the keys is what the pattern needs: with the empty
    key the loop would rewrite a text the pattern does not match. *)
Example short_circuit_empty_key :
  let p := mkPara [InRun (mkRun (py "[]") 0)] in
  replace_in_paragraph [([], py "v")] p = p
  /\ replace_in_runs [([], py "v")] p = mkPara [InRun (mkRun (py "v") 0)].
Proof. split; reflexivity. Qed.

(** ** Occurrences split across runs *)

Lemma in_split_first (s : str) :
  In RB s -> exists n r, s = n ++ RB :: r /\ ~ In RB n.
Proof.
  intros H. destruct (span_name_RB _ H) as (n & r & E).
  exists n, r. pose proof (span_name_app s) as Ha.
  pose proof (span_name_fst_no_RB s) as Hn. rewrite E in Ha, Hn. auto.
Qed.

Lemma first_RB_unique (n r n' r' : str) :
  n ++ RB :: r = n' ++ RB :: r' -> ~ In RB n -> ~ In RB n' ->
  n = n' /\ r = r'.
Proof.
  revert n'; induction n as [|c n IH]; intros [|c' n']; simpl; intros E Hn Hn'.
  - now injection E.
  - injection E as <- _. tauto.
  - injection E as -> _. tauto.
  - injection E as <- E. destruct (IH n' E) as [-> ->]; tauto.
Qed.

(** Every [LB] of the text is followed, within the text, by an [RB]: a
    scan that has read the text is not inside a bracket. *)
Definition closed_before (pre : str) : Prop :=
  forall u v, pre = u ++ LB :: v -> In RB v.

Lemma closed_before_suffix (w pre : str) :
  closed_before (w ++ pre) -> closed_before pre.
Proof.
  intros H u v ->. apply (H (w ++ u) v). now rewrite <- app_assoc.
Qed.

(** An occurrence of the token of a valid name that is not inside an open
    bracket is a match of the pattern. *)
Lemma findall_reports (name post pre : str) :
  valid_name name -> closed_before pre ->
  In name (findall (pre ++ bracketed name ++ post)).
Proof.
  intros [Hne Hn].
  induction pre as [pre IH] using (induction_ltof1 _ (@length ascii)).
  unfold ltof in IH. intros Hc. destruct pre as [|c pre].
  - change ([] ++ bracketed name ++ post) with (bracketed name ++ post).
    rewrite bracketed_token, findall_cons, match_here_token by assumption.
    now left.
  - change ((c :: pre) ++ bracketed name ++ post)
      with (c :: pre ++ bracketed name ++ post).
    rewrite findall_cons.
    destruct (match_here (c :: pre ++ bracketed name ++ post)) as [[n r]|] eqn:E.
    + right. pose proof (match_here_name _ _ _ E) as [_ Hnn].
      apply match_here_Some in E. injection E as -> E.
      pose proof (Hc [] pre eq_refl) as Hrb.
      destruct (in_split_first _ Hrb) as (n' & pre' & -> & Hn').
      rewrite <- app_assoc in E. simpl in E.
      destruct (first_RB_unique _ _ _ _ E Hn' Hnn) as [-> <-].
      apply IH.
      * simpl. rewrite length_app. simpl. lia.
      * apply (closed_before_suffix (LB :: n ++ [RB])).
        simpl. rewrite <- app_assoc. exact Hc.
    + apply IH; [simpl; lia|]. now apply (closed_before_suffix [c]).
Qed.

(** ** What the scanner returns *)

Lemma contains_cons_true (sub : str) (c : ascii) (s : str) :
  contains sub s = true -> contains sub (c :: s) = true.
Proof. intros H. apply (contains_app sub [c] s []) in H. now rewrite app_nil_r in H. Qed.

Lemma findall_token_occurs (s n : str) :
  In n (findall s) -> contains (bracketed n) s = true.
Proof.
  induction s as [|c s m r E IH|c s E IH] using scan_ind.
  - intros [].
  - rewrite findall_cons, E. pose proof (match_here_Some _ _ _ E) as Hs.
    rewrite Hs. intros [<-|H].
    + apply contains_true. exists [], r. exact (eq_sym (bracketed_token m r)).
    + apply contains_true. apply IH, contains_true in H.
      destruct H as (pre & post & ->).
      exists (LB :: m ++ RB :: pre), post.
      change (LB :: m ++ RB :: pre ++ bracketed n ++ post
              = LB :: (m ++ RB :: pre) ++ bracketed n ++ post).
      now rewrite <- app_assoc.
  - rewrite findall_cons, E. intros H. now apply contains_cons_true, IH.
Qed.


(** The pattern matches at the front of [s], with the name [n], and
    [rest] follows the match: [s] is an [LB], the name, which is not empty
    and holds no [RB], an [RB], and [rest]. *)
Definition match_at_front (s n rest : str) : Prop :=
  s = LB :: n ++ RB :: rest /\ n <> [] /\ ~ In RB n.

(** The names of the matches of the pattern in a text, as [re.findall]
    documents them: the text is read from left to right, a match is taken
    where one begins, and the reading resumes behind it. *)
Inductive matches : str -> list str -> Prop :=
| matches_end : matches [] []
| matches_here (s n rest : str) (names : list str) :
    match_at_front s n rest -> matches rest names -> matches s (n :: names)
| matches_skip (c : ascii) (s : str) (names : list str) :
    (forall n rest, ~ match_at_front (c :: s) n rest) ->
    matches s names -> matches (c :: s) names.

(** The order of strings, spelled out: [a] comes before [b] when [a] is a
    proper prefix of [b], or when, behind a common prefix, [a] goes on with
    a character of a smaller code point than [b] does. *)
Definition lex_lt (a b : str) : Prop :=
  (exists c t, b = a ++ c :: t)
  \/ (exists u x y a' b',
        a = u ++ x :: a' /\ b = u ++ y :: b'
        /\ (N_of_ascii x < N_of_ascii y)%N).

Lemma match_here_front (s n r : str) :
  match_here s = Some (n, r) <-> match_at_front s n r.
Proof.
  split.
  - intros E. split; [now apply match_here_Some | now apply (match_here_name s n r)].
  - intros (-> & Hne & Hn). now apply match_here_token.
Qed.

Lemma matches_findall (s : str) : matches s (findall s).
Proof.
  induction s as [|c s n r E IH|c s E IH] using scan_ind.
  - constructor.
  - rewrite findall_cons, E. apply (matches_here _ n r); [|exact IH].
    now apply match_here_front.
  - rewrite findall_cons, E. apply matches_skip; [|exact IH].
    intros n r H. apply match_here_front in H. congruence.
Qed.

Lemma matches_unique (s : str) (names : list str) :
  matches s names -> names = findall s.
Proof.
  induction 1 as [|s n rest names Hm _ IH|c s names Hno _ IH].
  - reflexivity.
  - pose proof Hm as (-> & _). apply match_here_front in Hm.
    now rewrite findall_cons, Hm, IH.
  - rewrite findall_cons.
    destruct (match_here (c :: s)) as [[n r]|] eqn:E; [|exact IH].
    apply match_here_front in E. now apply Hno in E.
Qed.

Lemma str_compare_lex (a b : str) : str_compare a b = Lt <-> lex_lt a b.
Proof.
  split.
  - revert b; induction a as [|x a IH]; intros [|y b]; simpl; try discriminate.
    + intros _. left. now exists y, b.
    + destruct (Ascii.compare x y) eqn:E; try discriminate.
      * apply Ascii.compare_eq_iff in E. subst y. intros H.
        destruct (IH b H) as [(c & t & ->)|(u & x' & y' & a' & b' & -> & -> & Hlt)].
        -- left. now exists c, t.
        -- right. now exists (x :: u), x', y', a', b'.
      * intros _. right. exists [], x, y, a, b. repeat split.
        unfold Ascii.compare in E. now apply N.compare_lt_iff.
  - intros [(c & t & ->)|(u & x & y & a' & b' & -> & -> & Hlt)].
    + induction a as [|x a IH]; simpl; [reflexivity|].
      now rewrite StrOrder.ascii_compare_refl.
    + induction u as [|z u IH]; simpl.
      * unfold Ascii.compare. apply N.compare_lt_iff in Hlt. now rewrite Hlt.
      * now rewrite StrOrder.ascii_compare_refl.
Qed.

Lemma StronglySorted_impl {A : Type} (R S : A -> A -> Prop) (l : list A) :
  (forall a b, R a b -> S a b) -> StronglySorted R l -> StronglySorted S l.
Proof.
  intros H. induction 1 as [|a l _ IH Ha]; constructor; [exact IH|].
  eapply Forall_impl; [|exact Ha]. intros b. apply H.
Qed.

(** C3.  For every document the scanner returns the names of the matches
    of the pattern in the texts of the body paragraphs and of the
    paragraphs of every table cell, in strictly increasing order of code
    points (so sorted and without duplicates).  Every name returned is not
    empty, holds no closing bracket and stands between brackets in the
    text of a paragraph; every such occurrence that does not lie inside a
    bracket opened before it is returned; a document without a bracket
    pair yields the empty list. *)
Theorem C3_scan_sorted_distinct (doc : document) :
  let l := extract_placeholders doc in
  StronglySorted (fun a b => str_leb a b = true) l
  /\ StronglySorted lex_lt l
  /\ NoDup l
  /\ (forall n, In n l <->
        exists p names, In p (all_paragraphs doc)
                        /\ matches (text p) names /\ In n names)
  /\ (forall n, In n l ->
        n <> [] /\ ~ In RB n
        /\ exists p pre post, In p (all_paragraphs doc)
                              /\ text p = pre ++ LB :: n ++ RB :: post)
  /\ (forall p pre n post,
        In p (all_paragraphs doc) ->
        text p = pre ++ LB :: n ++ RB :: post ->
        n <> [] -> ~ In RB n -> closed_before pre ->
        In n l)
  /\ ((forall p, In p (all_paragraphs doc) -> no_bracket_pair (text p)) ->
      l = []).
Proof.
  intros l. subst l.
  pose proof (extract_placeholders_NoDup doc) as Hnd.
  pose proof (sorted_StronglySorted) as Hs.
  assert (Hsorted : StronglySorted (fun a b => str_leb a b = true)
                      (extract_placeholders doc)) by apply Hs.
  split; [exact Hsorted|]. split.
  { apply (StronglySorted_impl (fun a b => str_compare a b = Lt)).
    - intros a b. apply str_compare_lex.
    - now apply sorted_strict. }
  split; [exact Hnd|]. split; [|split; [|split]].
  - intros n. rewrite extract_placeholders_In. split.
    + intros (p & Hp & Hn). exists p, (findall (text p)).
      split; [exact Hp|]. split; [apply matches_findall | exact Hn].
    + intros (p & names & Hp & Hm & Hn). exists p. split; [exact Hp|].
      now rewrite <- (matches_unique _ _ Hm).
  - intros n Hn. apply extract_placeholders_In in Hn.
    destruct Hn as (p & Hp & Hn).
    destruct (findall_names _ _ Hn) as [Hne Hrb].
    split; [exact Hne|]. split; [exact Hrb|].
    pose proof (findall_token_occurs _ _ Hn) as Hc.
    apply contains_true in Hc. destruct Hc as (pre & post & Hc).
    exists p, pre, post. split; [exact Hp|]. now rewrite <- bracketed_token.
  - intros p pre n post Hp Ht Hne Hrb Hc.
    apply extract_placeholders_In. exists p. split; [exact Hp|].
    rewrite Ht, <- bracketed_token. now apply findall_reports.
  - intros Hno. destruct (extract_placeholders doc) as [|n l] eqn:E; [reflexivity|].
    assert (Hn : In n (extract_placeholders doc)) by (rewrite E; now left).
    apply extract_placeholders_In in Hn. destruct Hn as (p & Hp & Hn).
    rewrite (findall_no_pair _ (Hno p Hp)) in Hn. destruct Hn.
Qed.

Lemma C3_scan_witness :
  extract_placeholders doc_plain = []
  /\ In (py "Address") (extract_placeholders doc_letter).
Proof.
  split.
  - apply (C3_scan_sorted_distinct doc_plain).
    intros p Hp. apply no_LB_no_bracket_pair.
    simpl in Hp. destruct Hp as [<-|[<-|[]]]; vm_compute;
      intros H; repeat (destruct H as [H|H]; [discriminate H|]); exact H.
  - destruct (C3_scan_sorted_distinct doc_letter) as (_ & _ & _ & _ & _ & H & _).
    apply (H (mkPara [InRun (mkRun (py "[Ad") 0); InRun (mkRun (py "dress]") 2)])
             [] (py "Address") []).
    + vm_compute. tauto.
    + reflexivity.
    + discriminate.
    + vm_compute. intuition discriminate.
    + intros u v E. destruct u; discriminate E.
Defined.

Lemma replace_scan_ind (old : str) (Ho : old <> []) (P : str -> Prop) :
  P [] ->
  (forall c s rest, strip_prefix old (c :: s) = Some rest -> P rest -> P (c :: s)) ->
  (forall c s, strip_prefix old (c :: s) = None -> P s -> P (c :: s)) ->
  forall s, P s.
Proof.
  intros Hnil Hhit Hskip s.
  induction s as [s IH] using (induction_ltof1 _ (@length ascii)).
  unfold ltof in IH. destruct s as [|c s]; [exact Hnil|].
  destruct (strip_prefix old (c :: s)) as [rest|] eqn:E.
  - apply (Hhit c s rest E). apply IH.
    apply strip_prefix_Some in E. apply (f_equal (@length ascii)) in E.
    rewrite length_app in E. destruct old; [congruence|]. simpl in *. lia.
  - apply (Hskip c s E). apply IH. simpl. lia.
Qed.

Lemma contains_needs_RB (k x : str) :
  ~ In RB x -> contains (bracketed k) x = false.
Proof.
  intros Hx. apply contains_false. intros pre post ->. apply Hx.
  apply in_or_app. right. apply in_or_app. left.
  unfold bracketed. right. apply in_or_app. right. now left.
Qed.

(** A token that begins in [l ++ x], where [x] has no [RB], ends in [l]. *)
Lemma token_prefix_cut (u rest l x : str) :
  (u ++ [RB]) ++ rest = l ++ x -> ~ In RB x -> exists l', l = (u ++ [RB]) ++ l'.
Proof.
  revert l; induction u as [|c u IH]; intros [|d l]; simpl; intros E Hx.
  - subst x. contradiction Hx. now left.
  - injection E as <- _. now exists l.
  - subst x. contradiction Hx. right. apply in_or_app. left.
    apply in_or_app. right. now left.
  - injection E as <- E. destruct (IH l E Hx) as [l' ->]. now exists l'.
Qed.

(** What follows the last [RB] of a text is out of reach of any token. *)
Lemma replace_app_tail (k v a x : str) :
  ~ In RB x ->
  replace (bracketed k) v (a ++ x) = replace (bracketed k) v a ++ x.
Proof.
  intros Hx. pose proof (bracketed_nonempty k) as Hne.
  induction a as [|c s rest E IH|c s E IH] using (replace_scan_ind (bracketed k) Hne).
  - simpl. rewrite replace_absent by (auto using contains_needs_RB).
    unfold bracketed. now rewrite replace_nil.
  - apply strip_prefix_Some in E. rewrite E, <- app_assoc, !replace_hit by exact Hne.
    now rewrite IH, app_assoc.
  - change ((c :: s) ++ x) with (c :: s ++ x).
    assert (E' : strip_prefix (bracketed k) (c :: s ++ x) = None).
    { destruct (strip_prefix (bracketed k) (c :: s ++ x)) as [rest|] eqn:E';
        [|reflexivity].
      apply strip_prefix_Some in E'.
      destruct (token_prefix_cut (LB :: k) rest (c :: s) x) as [l' Hl];
        [symmetry; exact E' | exact Hx |].
      apply strip_prefix_Some in Hl.
      unfold bracketed in E. simpl in E, Hl. congruence. }
    rewrite !replace_skip by assumption. simpl. now rewrite IH.
Qed.

(** What precedes the first [LB] of a text is copied. *)
Lemma replace_pass (k v y b : str) :
  ~ In LB y ->
  replace (bracketed k) v (y ++ b) = y ++ replace (bracketed k) v b.
Proof.
  induction y as [|c y IH]; intros Hy; [reflexivity|]. simpl.
  rewrite replace_skip.
  - rewrite IH; [reflexivity|]. simpl in Hy. tauto.
  - apply bracketed_nonempty.
  - apply strip_prefix_head; [|apply bracketed_nonempty].
    simpl. intros [= <-]. apply Hy. now left.
Qed.

Lemma replace_in_text_app_tail (values : dict) (a x : str) :
  ~ In RB x ->
  replace_in_text values (a ++ x) = replace_in_text values a ++ x.
Proof.
  intros Hx. revert a; induction values as [|[k v] values IH]; intros a;
    [reflexivity|].
  now rewrite !replace_in_text_cons, replace_app_tail, IH.
Qed.

Lemma replace_in_text_pass (values : dict) (y b : str) :
  ~ In LB y ->
  replace_in_text values (y ++ b) = y ++ replace_in_text values b.
Proof.
  intros Hy. revert b; induction values as [|[k v] values IH]; intros b;
    [reflexivity|].
  now rewrite !replace_in_text_cons, replace_pass, IH.
Qed.

Lemma replace_in_text_no_LB (values : dict) (t : str) :
  ~ In LB t -> replace_in_text values t = t.
Proof.
  intros Ht. rewrite <- (app_nil_r t) at 1.
  rewrite replace_in_text_pass by exact Ht.
  replace (replace_in_text values []) with (@nil ascii); [apply app_nil_r|].
  induction values as [|[k v] values IH]; [reflexivity|].
  rewrite replace_in_text_cons. unfold bracketed. now rewrite replace_nil.
Qed.

(** An occurrence of the token of [name] in the text of [p] that is split
    across what the paragraph holds: it begins with the non-empty piece [x]
    at the end of [i1], runs through the whole of [mid], and ends with the
    non-empty piece [y] at the front of [i2].  Each of [i1], [i2] and the
    members of [mid] is a run of the paragraph or a hyperlink. *)
Definition split_occurrence (p : paragraph) (name : str)
    (c1 : list inline) (i1 : inline) (mid : list inline) (i2 : inline)
    (c2 : list inline) (a x y b : str) : Prop :=
  content p = c1 ++ i1 :: mid ++ i2 :: c2
  /\ inline_text i1 = a ++ x
  /\ inline_text i2 = y ++ b
  /\ x <> [] /\ y <> []
  /\ bracketed name = x ++ concat (map inline_text mid) ++ y.

Lemma split_occurrence_text p name c1 i1 mid i2 c2 a x y b :
  split_occurrence p name c1 i1 mid i2 c2 a x y b ->
  text p = (concat (map inline_text c1) ++ a) ++ bracketed name
           ++ (b ++ concat (map inline_text c2)).
Proof.
  intros (Hr & H1 & H2 & _ & _ & Ht). unfold text. rewrite Hr, Ht.
  rewrite map_app, concat_app. simpl. rewrite map_app, concat_app. simpl.
  rewrite H1, H2. now rewrite <- !app_assoc.
Qed.

(** What the loop does to one member of a paragraph: nothing when its text
    has no [LB]; it keeps a piece without [RB] at the end, and a piece
    without [LB] at the front. *)
Lemma replace_in_inline_no_LB (values : dict) (i : inline) :
  ~ In LB (inline_text i) -> replace_in_inline values i = i.
Proof.
  destruct i as [[t st]|rs]; [|reflexivity]. simpl. intros H.
  unfold replace_in_run. simpl. now rewrite replace_in_text_no_LB.
Qed.

Lemma replace_in_inline_tail (values : dict) (i : inline) (a x : str) :
  inline_text i = a ++ x -> ~ In RB x ->
  exists a', inline_text (replace_in_inline values i) = a' ++ x.
Proof.
  destruct i as [r|rs]; simpl; intros E Hx.
  - exists (replace_in_text values a). rewrite E.
    now apply replace_in_text_app_tail.
  - now exists a.
Qed.

Lemma replace_in_inline_head (values : dict) (i : inline) (y b : str) :
  inline_text i = y ++ b -> ~ In LB y ->
  exists b', inline_text (replace_in_inline values i) = y ++ b'.
Proof.
  destruct i as [r|rs]; simpl; intros E Hy.
  - exists (replace_in_text values b). rewrite E.
    now apply replace_in_text_pass.
  - now exists b.
Qed.

(** The pieces of a split token: the first has no [RB], the others no
    [LB]. *)
Lemma split_token_pieces (name x m y : str) :
  ~ In RB name -> ~ In LB name -> x <> [] -> y <> [] ->
  bracketed name = x ++ m ++ y ->
  ~ In RB x /\ ~ In LB m /\ ~ In LB y.
Proof.
  intros Hr Hl Hx Hy E. unfold bracketed in E.
  destruct x as [|c x]; [congruence|]. injection E as <- E.
  assert (Hnl : ~ In LB (m ++ y)).
  { intros H. assert (H' : In LB (name ++ [RB]))
      by (rewrite E; apply in_or_app; now right).
    apply in_app_or in H'. destruct H' as [H'|[H'|[]]]; [tauto | discriminate H']. }
  split; [|split; intros H; apply Hnl; apply in_or_app; tauto].
  intros [H|H]; [discriminate H|].
  destruct (in_split_first _ H) as (u & w & -> & Hu).
  rewrite <- app_assoc in E. simpl in E.
  destruct (first_RB_unique _ _ _ _ E Hr Hu) as [_ E'].
  destruct w, m, y; simpl in E'; congruence.
Qed.

(** C9, amended.  A paragraph whose text contains the token of a name that
    has no bracket in it, split across runs and not inside an open bracket:
    the scanner reports the name, for the paragraph and for every document
    that holds it, and the substitutor, whatever the values, leaves the
    split occurrence where it is: the same pieces at the end and at the
    front of the same two members of the paragraph, what lies between them
    untouched. *)
Theorem C9_split_placeholder_scanned_not_filled
    (values : dict) (p : paragraph) (name : str)
    (c1 : list inline) (i1 : inline) (mid : list inline) (i2 : inline)
    (c2 : list inline) (a x y b : str) :
  valid_name name -> ~ In LB name ->
  split_occurrence p name c1 i1 mid i2 c2 a x y b ->
  closed_before (concat (map inline_text c1) ++ a) ->
  In name (findall (text p))
  /\ (forall doc, In p (all_paragraphs doc) -> In name (extract_placeholders doc))
  /\ exists c1' i1' i2' c2' a' b',
       split_occurrence (replace_in_paragraph values p) name
                        c1' i1' mid i2' c2' a' x y b'
       /\ length c1' = length c1 /\ length c2' = length c2.
Proof.
  intros Hv Hl Hs Hc.
  assert (Hin : In name (findall (text p))).
  { rewrite (split_occurrence_text _ _ _ _ _ _ _ _ _ _ _ Hs).
    now apply findall_reports. }
  split; [exact Hin|]. split.
  { intros doc Hp. apply extract_placeholders_In. now exists p. }
  unfold replace_in_paragraph. destruct (search (text p)).
  2:{ exists c1, i1, i2, c2, a, b. auto. }
  destruct Hs as (Hr & H1 & H2 & Hx & Hy & Ht).
  destruct (split_token_pieces name x _ y (proj2 Hv) Hl Hx Hy Ht) as (Hxr & Hml & Hyl).
  destruct (replace_in_inline_tail values i1 a x H1 Hxr) as [a' Ha'].
  destruct (replace_in_inline_head values i2 y b H2 Hyl) as [b' Hb'].
  exists (map (replace_in_inline values) c1), (replace_in_inline values i1),
         (replace_in_inline values i2), (map (replace_in_inline values) c2),
         a', b'.
  split; [|now rewrite !length_map].
  split; [|split; [exact Ha'|split; [exact Hb'|auto]]].
  unfold replace_in_runs. simpl. rewrite Hr, map_app. simpl.
  rewrite map_app. simpl. do 3 f_equal.
  apply map_fixed. intros i Hm. apply replace_in_inline_no_LB.
  intros H. apply Hml. apply in_concat. exists (inline_text i).
  split; [|exact H]. apply in_map_iff. now exists i.
Qed.

Definition para_split_date : paragraph :=
  mkPara [InRun (mkRun (py "on [Day], [Da") 0); InRun (mkRun (py "te] we met") 1)].

Lemma C9_split_placeholder_witness :
  In (py "Date") (findall (text para_split_date))
  /\ text (replace_in_paragraph [(py "Date", py "2024-01-01"); (py "Day", py "Monday")]
                                para_split_date)
     = py "on Monday, [Date] we met".
Proof.
  destruct (C9_split_placeholder_scanned_not_filled
              [(py "Date", py "2024-01-01"); (py "Day", py "Monday")]
              para_split_date (py "Date")
              [] (InRun (mkRun (py "on [Day], [Da") 0)) [] (InRun (mkRun (py "te] we met") 1)) []
              (py "on [Day], ") (py "[Da") (py "te]") (py " we met"))
    as (H & _ & _).
  - split; [discriminate|]. vm_compute. intuition discriminate.
  - vm_compute. intuition discriminate.
  - repeat split; discriminate.
  - intros u v E.
    destruct u as [|c0 u]; [discriminate E|]; injection E as _ E.
    destruct u as [|c1 u]; [discriminate E|]; injection E as _ E.
    destruct u as [|c2 u]; [discriminate E|]; injection E as _ E.
    destruct u as [|c3 u].
    { injection E as <-. vm_compute. tauto. }
    injection E as _ E.
    repeat (destruct u as [|? u]; [discriminate E|]; injection E as _ E).
    destruct u; discriminate E.
  - split; [exact H|]. vm_compute. reflexivity.
Defined.

(** C9 as stated fails on its first half when the split token sits inside
    an open bracket: the text [[[A]] contains the token of [A], split after
    [[[A], and the scanner reports [[A], not [A]. *)
Lemma C9_counterexample :
  let p := mkPara [InRun (mkRun (py "[[A") 0); InRun (mkRun (py "]") 0)] in
  split_occurrence p (py "A") [] (InRun (mkRun (py "[[A") 0)) [] (InRun (mkRun (py "]") 0)) []
                   (py "[") (py "[A") (py "]") []
  /\ findall (text p) = [py "[A"]
  /\ ~ In (py "A") (findall (text p)).
Proof.
  assert (E : findall (py "[[A]") = [py "[A"]) by (vm_compute; reflexivity).
  split; [repeat split; discriminate|].
  split; [exact E|]. change (~ In (py "A") (findall (py "[[A]"))).
  rewrite E. intros [H|[]]. discriminate H.
Qed.

(** Its second half fails when the name holds an [LB]: the piece in the
    second run is then a token of its own. *)
Example split_occurrence_rewritten :
  let p := mkPara [InRun (mkRun (py "[a") 0); InRun (mkRun (py "[b]") 0)] in
  let values := [(py "a[b", py "x"); (py "b", py "y")] in
  split_occurrence p (py "a[b") [] (InRun (mkRun (py "[a") 0)) [] (InRun (mkRun (py "[b]") 0)) []
                   [] (py "[a") (py "[b]") []
  /\ findall (text p) = [py "a[b"]
  /\ text (replace_in_paragraph values p) = py "[ay".
Proof.
  split; [repeat split; discriminate|]. split; vm_compute; reflexivity.
Qed.

(** ** Filling a paragraph whose tokens lie within single runs *)

(** Every occurrence of [tok] in the concatenation of the texts [ts] lies
    within one of the texts. *)
Definition whole_tokens (ts : list str) (tok : str) : Prop :=
  forall pre post, concat ts = pre ++ tok ++ post ->
  exists ts1 t ts2 a b,
    ts = ts1 ++ t :: ts2 /\ t = a ++ tok ++ b
    /\ pre = concat ts1 ++ a /\ post = b ++ concat ts2.

Lemma whole_tokens_single (t tok : str) : whole_tokens [t] tok.
Proof.
  intros pre post E. simpl in E. rewrite app_nil_r in E.
  exists [], t, [], pre, post. simpl. now rewrite app_nil_r.
Qed.

Lemma whole_tokens_drop (x b : str) (ts : list str) (tok : str) :
  whole_tokens ((x ++ b) :: ts) tok -> whole_tokens (b :: ts) tok.
Proof.
  intros H pre post E.
  destruct (H (x ++ pre) post) as (ts1 & t & ts2 & a' & b' & Hts & Ht & Hpre & Hpost).
  { simpl in *. rewrite <- !app_assoc. now rewrite E. }
  destruct ts1 as [|t1 ts1]; simpl in Hts, Hpre; injection Hts as Hh Ht'.
  - subst t a'. rewrite <- app_assoc in Ht. apply app_inv_head in Ht.
    exists [], b, ts2, pre, b'. subst ts. auto.
  - subst t1 ts. rewrite <- !app_assoc in Hpre. apply app_inv_head in Hpre.
    exists (b :: ts1), t, ts2, a', b'. simpl. rewrite <- app_assoc. auto.
Qed.

Lemma whole_tokens_drop_empty (ts : list str) (tok : str) :
  tok <> [] -> whole_tokens ([] :: ts) tok -> whole_tokens ts tok.
Proof.
  intros Hne H pre post E.
  destruct (H pre post E) as (ts1 & t & ts2 & a & b & Hts & Ht & Hpre & Hpost).
  destruct ts1 as [|t1 ts1]; simpl in Hts; injection Hts as Hh Ht'.
  - subst t. destruct a; [|discriminate Ht]. simpl in Ht.
    destruct tok; [congruence | discriminate Ht].
  - subst t1 ts. now exists ts1, t, ts2, a, b.
Qed.

Lemma findall_pass (v s : str) : ~ In LB v -> findall (v ++ s) = findall s.
Proof.
  induction v as [|c v IH]; intros Hv; [reflexivity|]. simpl.
  rewrite findall_cons, match_here_not_LB; [apply IH|]; simpl in Hv; tauto.
Qed.

Lemma findall_LB_RB (s : str) : findall (LB :: RB :: s) = findall s.
Proof.
  rewrite findall_cons, match_here_LB_RB, findall_cons.
  now rewrite match_here_not_LB by discriminate.
Qed.

(** Where [LB] does not start a match, what follows begins with [RB] or
    has no [RB] at all. *)
Lemma match_here_LB_None (rest : str) :
  match_here (LB :: rest) = None ->
  (exists s, rest = RB :: s) \/ ~ In RB rest.
Proof.
  intros H. destruct rest as [|c rest]; [right; simpl; tauto|].
  destruct (Ascii.eqb_spec c RB) as [->|Hc]; [left; now exists rest|].
  right. intros [E|Hin]; [congruence|].
  now apply (match_here_open c rest Hc Hin).
Qed.

Section Fill.

Variable values : dict.

Hypothesis keys_valid :
  forall k, In k (keys values) -> valid_name k /\ ~ In LB k.
Hypothesis values_no_LB :
  forall k v, In (k, v) values -> ~ In LB v.

(** A token of another name does not begin where the token of [n] does. *)
Lemma token_skip (k v n b : str) :
  ~ In RB k -> ~ In RB n -> ~ In LB n -> k <> n ->
  replace (bracketed k) v (bracketed n ++ b)
  = bracketed n ++ replace (bracketed k) v b.
Proof.
  intros Hk Hn Hl Hkn. rewrite bracketed_token.
  rewrite replace_skip; [|apply bracketed_nonempty|].
  - replace (n ++ RB :: b) with ((n ++ [RB]) ++ b) by now rewrite <- app_assoc.
    rewrite replace_pass.
    + unfold bracketed. simpl. now rewrite <- app_assoc.
    + intros H. apply in_app_or in H. destruct H as [H|[H|[]]];
        [tauto | discriminate H].
  - destruct (strip_prefix (bracketed k) (LB :: n ++ RB :: b)) as [rest|] eqn:E;
      [|reflexivity].
    apply strip_prefix_Some in E. rewrite bracketed_token in E.
    injection E as E. symmetry in E.
    destruct (first_RB_unique _ _ _ _ E Hk Hn). congruence.
Qed.

(** The loop over the values replaces a token at the front by a value
    without [LB] and carries on behind it. *)
Lemma replace_in_text_token (n : str) :
  In n (keys values) ->
  exists v, ~ In LB v /\
    forall b, replace_in_text values (bracketed n ++ b)
              = v ++ replace_in_text values b.
Proof.
  intros Hin. destruct (keys_valid n Hin) as [[_ Hn] Hl].
  revert keys_valid values_no_LB Hin.
  induction values as [|[k v0] vals IH]; intros Hkeys Hvals Hin; [destruct Hin|].
  destruct (str_eq_dec k n) as [->|Hkn].
  - exists v0. split; [apply (Hvals n); now left|]. intros b.
    rewrite !replace_in_text_cons, replace_hit by apply bracketed_nonempty.
    apply replace_in_text_pass. apply (Hvals n). now left.
  - destruct Hin as [Hin|Hin]; [simpl in Hin; congruence|].
    destruct IH as (v & Hv & Hb); auto.
    { intros k' Hk'. apply Hkeys. now right. }
    { intros k' v' Hk'. apply (Hvals k'). now right. }
    exists v. split; [exact Hv|]. intros b.
    rewrite !replace_in_text_cons, token_skip; auto.
    destruct (Hkeys k) as [[_ Hk] _]; [now left | exact Hk].
Qed.

Lemma replace_in_text_LB_RB (t : str) :
  replace_in_text values (LB :: RB :: t) = LB :: RB :: replace_in_text values t.
Proof.
  revert keys_valid t. clear values_no_LB.
  induction values as [|[k v] vals IH]; intros Hkeys t; [reflexivity|].
  rewrite !replace_in_text_cons.
  destruct (Hkeys k) as [[Hne Hk] _]; [now left|].
  rewrite replace_skip; [|apply bracketed_nonempty|].
  - change (RB :: t) with ([RB] ++ t).
    rewrite replace_pass by (intros [H|[]]; discriminate H).
    apply IH. intros k' Hk'. apply Hkeys. now right.
  - destruct k as [|c k]; [congruence|]. unfold bracketed. simpl.
    destruct (Ascii.eqb_spec c RB) as [->|]; [|reflexivity].
    contradiction Hk. now left.
Qed.

Lemma replace_in_text_no_RB (t : str) :
  ~ In RB t -> replace_in_text values t = t.
Proof.
  intros Ht. apply replace_in_text_absent. intros k _.
  now apply contains_needs_RB.
Qed.

Definition filled (ts : list str) : str :=
  concat (map (replace_in_text values) ts).

Lemma filled_no_RB (ts : list str) :
  ~ In RB (concat ts) -> filled ts = concat ts.
Proof.
  unfold filled. induction ts as [|t ts IH]; simpl; intros H; [reflexivity|].
  rewrite replace_in_text_no_RB, IH; auto; intros H'; apply H;
    apply in_or_app; auto.
Qed.

Lemma filled_cons (t : str) (ts : list str) :
  filled (t :: ts) = replace_in_text values t ++ filled ts.
Proof. reflexivity. Qed.

Lemma filled_pass (y t : str) (ts : list str) :
  ~ In LB y -> filled ((y ++ t) :: ts) = y ++ filled (t :: ts).
Proof.
  intros Hy. rewrite !filled_cons, replace_in_text_pass by exact Hy.
  now rewrite app_assoc.
Qed.

Definition all_found (ts : list str) : Prop :=
  forall n, In n (findall (concat ts)) -> In n (keys values).

Definition all_whole (ts : list str) : Prop :=
  forall k, In k (keys values) -> whole_tokens ts (bracketed k).

Lemma all_whole_drop (x b : str) (ts : list str) :
  all_whole ((x ++ b) :: ts) -> all_whole (b :: ts).
Proof. intros H k Hk. apply (whole_tokens_drop x), H, Hk. Qed.

(** The token found at the front of the text is the front of the first
    run. *)
Lemma front_token_in_run (c : ascii) (t : str) (ts : list str) (n r : str) :
  all_found ((c :: t) :: ts) -> all_whole ((c :: t) :: ts) ->
  match_here (c :: t ++ concat ts) = Some (n, r) ->
  In n (keys values)
  /\ exists b, c :: t = bracketed n ++ b /\ r = b ++ concat ts.
Proof.
  intros Hf Hw E.
  assert (Hn : In n (keys values)).
  { apply Hf. simpl. rewrite findall_cons, E. now left. }
  split; [exact Hn|].
  apply match_here_Some in E.
  destruct (Hw n Hn [] r) as (ts1 & t0 & ts2 & a & b & Hts & Ht0 & Hpre & Hpost).
  { rewrite <- bracketed_token in E. exact E. }
  symmetry in Hpre. apply app_eq_nil in Hpre. destruct Hpre as [Hc1 ->].
  destruct ts1 as [|t1 ts1]; simpl in Hts; injection Hts as Hh Ht'.
  - exists b. subst. auto.
  - subst t1. discriminate Hc1.
Qed.

(** After the loop over the runs the pattern matches nowhere in the
    text, and a text that began with [RB] still does. *)
Lemma filled_dead (ts : list str) :
  all_found ts -> all_whole ts ->
  findall (filled ts) = []
  /\ (forall s, concat ts = RB :: s -> exists s', filled ts = RB :: s').
Proof.
  induction ts as [ts IH]
    using (induction_ltof1 _ (fun ts => length (concat ts) + length ts)).
  unfold ltof in IH. intros Hf Hw. destruct ts as [|[|c t] ts].
  - split; [reflexivity | intros s E; discriminate E].
  - (* an empty run *)
    rewrite filled_cons, replace_in_text_no_RB by (simpl; tauto).
    change ([] ++ filled ts) with (filled ts).
    change (concat ([] :: ts)) with (concat ts).
    apply IH; [simpl; lia | exact Hf |].
    intros k Hk. apply whole_tokens_drop_empty;
      [apply bracketed_nonempty | now apply Hw].
  - destruct (match_here (c :: t ++ concat ts)) as [[n r]|] eqn:E.
    + (* a token at the front *)
      destruct (front_token_in_run c t ts n r Hf Hw E) as (Hn & b & Hb & Hr).
      destruct (replace_in_text_token n Hn) as (v & Hv & Hrep).
      rewrite Hb in Hw |- *. rewrite filled_cons, Hrep, <- app_assoc.
      change (replace_in_text values b ++ filled ts) with (filled (b :: ts)).
      destruct (IH (b :: ts)) as [Hd _].
      * apply (f_equal (@length ascii)) in Hb. rewrite length_app in Hb.
        simpl in *. rewrite !length_app. lia.
      * intros m Hm. apply Hf. simpl. rewrite findall_cons, E. right.
        simpl in Hm. now rewrite Hr.
      * now apply all_whole_drop in Hw.
      * split; [now rewrite findall_pass|].
        intros s Es. unfold bracketed in Es. discriminate Es.
    + destruct (Ascii.eqb_spec c LB) as [->|Hc].
      * (* an opening bracket that starts no match *)
        destruct (match_here_LB_None _ E) as [[s Es]|Hno].
        -- destruct t as [|c' t].
           ++ simpl in Es. change (match_here (LB :: concat ts) = None) in E.
              rewrite filled_cons, replace_in_text_no_RB
                by (intros [H|[]]; discriminate H).
              destruct (IH ts) as [Hd Hs].
              ** simpl. lia.
              ** intros m Hm. apply Hf. simpl. now rewrite findall_cons, E.
              ** intros k Hk. apply whole_tokens_drop_empty;
                   [apply bracketed_nonempty|].
                 apply (whole_tokens_drop [LB] []). now apply Hw.
              ** destruct (Hs s Es) as [s' Hs']. split.
                 { rewrite Hs' in Hd |- *. simpl. rewrite findall_LB_RB.
                   rewrite findall_cons, match_here_not_LB in Hd
                     by discriminate. exact Hd. }
                 intros s0 E0. discriminate E0.
           ++ injection Es as -> Es.
              rewrite filled_cons, replace_in_text_LB_RB.
              change ((LB :: RB :: replace_in_text values t) ++ filled ts)
                with (LB :: RB :: filled (t :: ts)).
              destruct (IH (t :: ts)) as [Hd _].
              ** simpl. rewrite !length_app. lia.
              ** intros m Hm. apply Hf. simpl. now rewrite findall_LB_RB.
              ** apply (all_whole_drop [LB; RB]). exact Hw.
              ** split; [now rewrite findall_LB_RB|].
                 intros s0 E0. discriminate E0.
        -- assert (Hno' : ~ In RB (concat ((LB :: t) :: ts))).
           { simpl. intros [H|H]; [discriminate H | auto]. }
           rewrite (filled_no_RB _ Hno'). split; [now apply findall_no_RB|].
           intros s0 E0. discriminate E0.
      * (* any other character *)
        change (c :: t) with ([c] ++ t) in Hw |- *.
        rewrite filled_pass by (intros [H|[]]; congruence).
        destruct (IH (t :: ts)) as [Hd _].
        -- simpl. rewrite !length_app. lia.
        -- intros m Hm. apply Hf. simpl. now rewrite findall_cons, E.
        -- now apply all_whole_drop in Hw.
        -- split.
           ++ simpl. now rewrite findall_cons, match_here_not_LB.
           ++ intros s0 E0. simpl in E0. injection E0 as -> _.
              now exists (filled (t :: ts)).
Qed.

End Fill.

(** ** Filling a document *)

(** Every occurrence of the token of [k] in the text of [p] lies within a
    single formatting run, one of the paragraph or one of a hyperlink. *)
Definition in_some_run (p : paragraph) (k : str) : Prop :=
  whole_tokens (map run_text (all_runs p)) (bracketed k).

(** Every occurrence of the token of [k] in the text of [p] lies within a
    single run of [paragraph.runs]. *)
Definition in_single_run (p : paragraph) (k : str) : Prop :=
  forall pre post, text p = pre ++ bracketed k ++ post ->
  exists c1 r c2 a b,
    content p = c1 ++ InRun r :: c2
    /\ run_text r = a ++ bracketed k ++ b
    /\ pre = concat (map inline_text c1) ++ a
    /\ post = b ++ concat (map inline_text c2).

Lemma text_all_runs (p : paragraph) :
  text p = concat (map run_text (all_runs p)).
Proof.
  unfold text, all_runs. induction (content p) as [|[r|rs] c IH]; simpl;
    [reflexivity| |]; rewrite IH; [reflexivity|].
  now rewrite map_app, concat_app.
Qed.

Lemma in_single_run_whole (p : paragraph) (k : str) :
  in_single_run p k ->
  whole_tokens (map inline_text (content p)) (bracketed k).
Proof.
  intros H pre post E. destruct (H pre post E) as (c1 & r & c2 & a & b & Hc & Hr & Hp & Hq).
  exists (map inline_text c1), (run_text r), (map inline_text c2), a, b.
  rewrite Hc, map_app. simpl. auto.
Qed.

(** An occurrence lies in one member of a list of texts only. *)
Lemma occurrence_unique (tok : str) (ts1 : list str) :
  forall (ts1' : list str) (t t' : str) (ts2 ts2' : list str) (a a' b b' : str),
  tok <> [] -> ts1 ++ t :: ts2 = ts1' ++ t' :: ts2' ->
  t = a ++ tok ++ b -> t' = a' ++ tok ++ b' ->
  concat ts1 ++ a = concat ts1' ++ a' ->
  length ts1 = length ts1'.
Proof.
  induction ts1 as [|u ts1 IH]; intros [|u' ts1'] t t' ts2 ts2' a a' b b'
    Hne E Ht Ht' Hc; simpl in *.
  - reflexivity.
  - injection E as Eu _. subst u' t. apply (f_equal (@length ascii)) in Hc.
    rewrite !length_app in Hc. destruct tok; [congruence|]. simpl in Hc. lia.
  - injection E as Eu _. subst u t'. apply (f_equal (@length ascii)) in Hc.
    rewrite !length_app in Hc. destruct tok; [congruence|]. simpl in Hc. lia.
  - injection E as <- E. rewrite <- !app_assoc in Hc. apply app_inv_head in Hc.
    f_equal. exact (IH _ _ _ _ _ _ _ _ _ Hne E Ht Ht' Hc).
Qed.

Lemma same_place {A : Type} (l1 : list A) :
  forall (l1' : list A) (x x' : A) (l2 l2' : list A),
  length l1 = length l1' -> l1 ++ x :: l2 = l1' ++ x' :: l2' -> x = x'.
Proof.
  induction l1 as [|y l1 IH]; intros [|y' l1'] x x' l2 l2' Hl E; simpl in *;
    try discriminate Hl.
  - now injection E.
  - injection E as _ E. injection Hl as Hl. exact (IH _ _ _ _ _ Hl E).
Qed.

(** When the tokens lie within runs of the paragraph, no hyperlink holds
    one. *)
Lemma in_single_run_link (p : paragraph) (k : str) (rs : list run) :
  in_single_run p k -> In (InLink rs) (content p) ->
  contains (bracketed k) (concat (map run_text rs)) = false.
Proof.
  intros H Hi. apply contains_false. intros a' b' E.
  apply in_split in Hi. destruct Hi as (c1 & c2 & Hc).
  destruct (H (concat (map inline_text c1) ++ a') (b' ++ concat (map inline_text c2)))
    as (c1' & r & c2' & a & b & Hc' & Hr & Hp & _).
  { unfold text. rewrite Hc, map_app, concat_app, map_cons, concat_cons.
    change (inline_text (InLink rs)) with (concat (map run_text rs)).
    rewrite E. now rewrite <- !app_assoc. }
  assert (Hl : length c1 = length c1').
  { rewrite <- (length_map inline_text c1), <- (length_map inline_text c1').
    apply (occurrence_unique (bracketed k) _ _
             (inline_text (InLink rs)) (run_text r)
             (map inline_text c2) (map inline_text c2') a' a b' b).
    - apply bracketed_nonempty.
    - change (run_text r) with (inline_text (InRun r)).
      rewrite <- !(map_cons inline_text), <- !map_app. now rewrite <- Hc, <- Hc'.
    - exact E.
    - exact Hr.
    - exact Hp. }
  rewrite Hc in Hc'. pose proof (same_place _ _ _ _ _ _ Hl Hc') as Hx.
  discriminate Hx.
Qed.

Lemma text_replace_in_runs (values : dict) (p : paragraph) :
  (forall rs, In (InLink rs) (content p) ->
              replace_in_text values (concat (map run_text rs))
              = concat (map run_text rs)) ->
  text (replace_in_runs values p)
  = filled values (map inline_text (content p)).
Proof.
  unfold text, replace_in_runs, filled. simpl. rewrite !map_map. intros H.
  f_equal. apply map_ext_in. intros [r|rs] Hi; [reflexivity|].
  simpl. symmetry. now apply H.
Qed.

Lemma flat_map_map_fill {X : Type} (f : X -> list paragraph) (g : X -> X)
    (h : paragraph -> paragraph) (xs : list X) :
  (forall x, f (g x) = map h (f x)) ->
  flat_map f (map g xs) = map h (flat_map f xs).
Proof.
  intros H. induction xs as [|x xs IH]; simpl; [reflexivity|].
  now rewrite map_app, H, IH.
Qed.

Lemma all_paragraphs_fill (values : dict) (doc : document) :
  all_paragraphs (fill_template values doc)
  = map (replace_in_paragraph values) (all_paragraphs doc).
Proof.
  unfold all_paragraphs, fill_template. simpl. rewrite map_app. f_equal.
  apply flat_map_map_fill. intros t. unfold table_paragraphs. simpl.
  apply flat_map_map_fill. intros r. simpl.
  apply flat_map_map_fill. intros c. reflexivity.
Qed.

Lemma extract_placeholders_nil (doc : document) :
  (forall p, In p (all_paragraphs doc) -> findall (text p) = []) ->
  extract_placeholders doc = [].
Proof.
  intros H. destruct (extract_placeholders doc) as [|n l] eqn:E; [reflexivity|].
  assert (Hn : In n (extract_placeholders doc)) by (rewrite E; now left).
  apply extract_placeholders_In in Hn. destruct Hn as (p & Hp & Hn).
  rewrite (H p Hp) in Hn. destruct Hn.
Qed.

(** A paragraph that the pattern no longer matches is left alone when it
    is visited again, as a paragraph of a merged cell is. *)
Lemma revisit_is_neutral (values : dict) (p : paragraph) :
  findall (text p) = [] -> replace_in_paragraph values p = p.
Proof.
  intros H. apply search_findall in H. unfold replace_in_paragraph.
  now rewrite H.
Qed.

(** A fill that changes no paragraph changes nothing. *)
Lemma fill_template_fixed (values : dict) (doc : document) :
  (forall p, In p (all_paragraphs doc) -> replace_in_paragraph values p = p) ->
  fill_template values doc = doc.
Proof.
  intros Hp.
  unfold fill_template. destruct doc as [ps ts]. unfold all_paragraphs in Hp.
  simpl in Hp. f_equal.
  - apply map_fixed. intros p Hin. apply Hp, in_or_app. now left.
  - apply map_fixed. intros [rs] Ht. f_equal. simpl.
    apply map_fixed. intros [cs] Hr. f_equal. simpl.
    apply map_fixed. intros [cps] Hc. f_equal. simpl.
    apply map_fixed. intros p Hin. apply Hp, in_or_app. right.
    apply in_flat_map. exists (mkTable rs). split; [exact Ht|].
    unfold table_paragraphs. simpl. apply in_flat_map.
    exists (mkRow cs). split; [exact Hr|]. simpl. apply in_flat_map.
    exists (mkCell cps). now split.
Qed.

(** C2, amended.  For every document and every Value Set whose keys are
    the scanned names, when every occurrence of a token lay within a single
    run of its paragraph, not one inside a hyperlink, and no name and no
    value contains an opening bracket: after the fill no paragraph holds
    the token of a key, a new scan finds nothing, and a further fill, such
    as the one a merged cell receives, changes nothing. *)
Theorem C2_fill_leaves_no_token (doc : document) (values : dict) :
  (forall k, In k (keys values) <-> In k (extract_placeholders doc)) ->
  (forall p k, In p (all_paragraphs doc) -> In k (keys values) ->
               in_single_run p k) ->
  (forall k, In k (keys values) -> ~ In LB k) ->
  (forall k v, In (k, v) values -> ~ In LB v) ->
  (forall p' k, In p' (all_paragraphs (fill_template values doc)) ->
                In k (keys values) ->
                contains (bracketed k) (text p') = false)
  /\ extract_placeholders (fill_template values doc) = []
  /\ fill_template values (fill_template values doc)
     = fill_template values doc.
Proof.
  intros Hkeys Hruns Hkl Hvl.
  assert (Hvalid : forall k, In k (keys values) -> valid_name k /\ ~ In LB k).
  { intros k Hk. split; [|now apply Hkl].
    apply Hkeys, extract_placeholders_In in Hk. destruct Hk as (p & _ & Hk).
    now apply findall_names in Hk. }
  assert (Hdead : forall p', In p' (all_paragraphs (fill_template values doc)) ->
                             findall (text p') = []).
  { intros p' Hp'. rewrite all_paragraphs_fill in Hp'.
    apply in_map_iff in Hp'. destruct Hp' as (p & <- & Hp).
    unfold replace_in_paragraph. destruct (search (text p)) eqn:Es.
    - rewrite text_replace_in_runs.
      + apply (filled_dead values Hvalid Hvl).
        * intros n Hn. apply Hkeys, extract_placeholders_In. now exists p.
        * intros k Hk. now apply in_single_run_whole, Hruns.
      + intros rs Hi. apply replace_in_text_absent. intros k Hk.
        apply (in_single_run_link p); [now apply Hruns | exact Hi].
    - now apply search_findall. }
  split; [|split].
  - intros p' k Hp' Hk. apply findall_nil_no_token; [now apply Hvalid | auto].
  - now apply extract_placeholders_nil.
  - apply fill_template_fixed. intros p' Hp'. now apply revisit_is_neutral, Hdead.
Qed.

Lemma in_single_run_one (t : str) (st : nat) (k : str) :
  in_single_run (mkPara [InRun (mkRun t st)]) k.
Proof.
  intros pre post E. unfold text in E. simpl in E. rewrite app_nil_r in E.
  exists [], (mkRun t st), [], pre, post. simpl. now rewrite app_nil_r.
Qed.

Definition doc_dear : document :=
  mkDoc [mkPara [InRun (mkRun (py "Dear [Company Name], ... [Date]") 0)]] [].

Definition values_dear : dict :=
  [(py "Company Name", py "Globex"); (py "Date", py "2024-01-01")].

Lemma C2_fill_witness :
  extract_placeholders (fill_template values_dear doc_dear) = []
  /\ map text (all_paragraphs (fill_template values_dear doc_dear))
     = [py "Dear Globex, ... 2024-01-01"].
Proof.
  split; [|vm_compute; reflexivity].
  apply (C2_fill_leaves_no_token doc_dear values_dear).
  - assert (E : extract_placeholders doc_dear = keys values_dear)
      by (vm_compute; reflexivity).
    intros k. rewrite E. tauto.
  - intros p k [<-|[]] _. apply in_single_run_one.
  - intros k [<-|[<-|[]]]; vm_compute; intuition discriminate.
  - intros k v [[= <- <-]|[[= <- <-]|[]]]; vm_compute; intuition discriminate.
Defined.

(** C2 as stated fails when a value holds a token: the value typed for
    [A] is the text [[A]] itself. *)
Lemma C2_counterexample :
  let doc := mkDoc [mkPara [InRun (mkRun (py "[A]") 0)]] [] in
  let values := [(py "A", py "[A]")] in
  keys values = extract_placeholders doc
  /\ (forall p k, In p (all_paragraphs doc) -> In k (keys values) ->
                  in_some_run p k /\ in_single_run p k)
  /\ exists p', In p' (all_paragraphs (fill_template values doc))
                /\ contains (bracketed (py "A")) (text p') = true.
Proof.
  split; [vm_compute; reflexivity|]. split.
  - intros p k [<-|[]] _. split; [apply whole_tokens_single|].
    apply in_single_run_one.
  - exists (mkPara [InRun (mkRun (py "[A]") 0)]). split; [|vm_compute; reflexivity].
    left. vm_compute. reflexivity.
Qed.

(** It fails as well when the token stands in a run of a hyperlink: the
    token is the whole text of one run, the scanner reads it in the text
    of the paragraph, and the substitutor does not visit the run. *)
Example fill_skips_hyperlink :
  let p := mkPara [InRun (mkRun (py "See ") 0); InLink [mkRun (py "[Site]") 1]] in
  let doc := mkDoc [p] [] in
  let values := [(py "Site", py "example.org")] in
  keys values = extract_placeholders doc
  /\ all_runs p = [mkRun (py "See ") 0; mkRun (bracketed (py "Site")) 1]
  /\ runs p = [mkRun (py "See ") 0]
  /\ fill_template values doc = doc
  /\ text p = py "See [Site]".
Proof. repeat split; vm_compute; reflexivity. Qed.

(** It also fails, with values free of brackets, when a name holds an
    opening bracket: erasing the token of [A] inside [[[A]A]] writes a new
    one. *)
Example fill_recreates_token :
  let doc := mkDoc [mkPara [InRun (mkRun (py "[[A]A]") 0)];
                    mkPara [InRun (mkRun (py "[A]") 0)]] [] in
  let values := [(py "A", []); (py "[A", py "x")] in
  keys values = extract_placeholders doc
  /\ map text (all_paragraphs (fill_template values doc)) = [py "[A]"; []].
Proof. split; vm_compute; reflexivity. Qed.

(** ** The company name *)




(** ** The value collector *)

Definition is_date (k : str) : bool :=
  if str_eq_dec (lower k) (py "date") then true else false.

(** The names that are asked for, in order. *)
Definition prompted (placeholders : list str) : list str :=
  filter (fun k => negb (is_date k)) placeholders.

Definition prompt_msg (placeholder : str) : str :=
  py "  " ++ placeholder ++ py ": ".

(** The prompts among what was written. *)
Definition prompts_of (out : list event) : list str :=
  flat_map (fun e => match e with Prompt m => [m] | Print _ => [] end) out.

(** What the loop collects from the typed lines [lines] on the day [day]. *)
Fixpoint collected (placeholders lines : list str) (day : str) : dict :=
  match placeholders with
  | [] => []
  | k :: more =>
      if is_date k then (k, day) :: collected more lines day
      else match lines with
           | line :: lines' => (k, strip line) :: collected more lines' day
           | [] => []
           end
  end.

Lemma dict_set_fresh (k v : str) (d : dict) :
  ~ In k (keys d) -> dict_set k v d = d ++ [(k, v)].
Proof.
  induction d as [|[k' v'] d IH]; simpl; intros H; [reflexivity|].
  destruct (str_eq_dec k k') as [->|_]; [tauto|]. rewrite IH; tauto.
Qed.

Lemma dict_get_In (k v : str) (d : dict) :
  NoDup (keys d) -> In (k, v) d -> dict_get k d = Some v.
Proof.
  induction d as [|[k' v'] d IH]; simpl; [tauto|].
  intros Hnd [H|H]; inversion Hnd as [|x l Hn Hnd']; subst.
  - injection H as -> ->. now destruct (str_eq_dec k k).
  - destruct (str_eq_dec k k') as [->|_]; [|auto].
    exfalso. apply Hn. apply in_map_iff. now exists (k', v).
Qed.

Lemma prompts_of_app (a b : list event) :
  prompts_of (a ++ b) = prompts_of a ++ prompts_of b.
Proof. unfold prompts_of. now rewrite flat_map_app. Qed.

Lemma is_date_dec (k : str) :
  (is_date k = true
   /\ exists e, str_eq_dec (lower k) (py "date") = left e)
  \/ (is_date k = false
      /\ exists e, str_eq_dec (lower k) (py "date") = right e).
Proof.
  unfold is_date. destruct (str_eq_dec (lower k) (py "date")) as [e|e];
    [left | right]; split; eauto.
Qed.

Lemma prompt_loop_collects (placeholders : list str) :
  forall (acc : dict) (w : world),
  NoDup (keys acc ++ placeholders) ->
  length (prompted placeholders) <= length (stdin w) ->
  exists w',
    prompt_loop placeholders acc w
    = (Ret (acc ++ collected placeholders (stdin w) (clock w)), w')
    /\ stdin w' = skipn (length (prompted placeholders)) (stdin w)
    /\ clock w' = clock w /\ tmpdir w' = tmpdir w /\ outdir w' = outdir w
    /\ prompts_of (stdout w')
       = prompts_of (stdout w) ++ map prompt_msg (prompted placeholders).
Proof.
  induction placeholders as [|k ps IH]; intros acc w Hnd Hlen.
  - exists w. cbn. unfold ret. rewrite !app_nil_r. repeat split.
  - assert (Hk : ~ In k (keys acc)).
    { intros H. apply NoDup_remove_2 in Hnd. apply Hnd, in_or_app. now left. }
    assert (Hnd' : forall v, NoDup (keys (acc ++ [(k, v)]) ++ ps)).
    { intros v. unfold keys. rewrite map_app, <- app_assoc. exact Hnd. }
    destruct (is_date_dec k) as [[Ek [e Ee]]|[Ek [e Ee]]];
      cbn [prompt_loop collected prompted filter] in Hlen |- *;
      rewrite Ee; rewrite Ek in Hlen |- *; cbn [negb] in Hlen |- *;
      fold (prompted ps) in Hlen |- *.
    + (* filled in from the clock *)
      unfold bind at 1 2 3, today, print, ret. cbn beta iota.
      rewrite dict_set_fresh by exact Hk.
      destruct (IH (acc ++ [(k, clock w)])
                   (mkWorld (stdin w)
                      (stdout w ++ [Print (py "  " ++ k ++ py ": " ++ clock w ++ py " (auto)")])
                      (clock w) (tmpdir w) (outdir w)))
        as (w' & Hrun & Hin & Hcl & Ht & Ho & Hp); [apply Hnd' | exact Hlen |].
      exists w'. cbn [stdin clock stdout tmpdir outdir] in *.
      rewrite Hrun, <- app_assoc. repeat split; auto.
      rewrite Hp, prompts_of_app. simpl. now rewrite app_nil_r.
    + (* asked for *)
      unfold bind at 1 2, input, ret. cbn beta iota.
      destruct (stdin w) as [|line more]; [simpl in Hlen; lia|].
      cbn beta iota. rewrite dict_set_fresh by exact Hk.
      destruct (IH (acc ++ [(k, strip line)])
                   (mkWorld more (stdout w ++ [Prompt (py "  " ++ k ++ py ": ")])
                      (clock w) (tmpdir w) (outdir w)))
        as (w' & Hrun & Hin & Hcl & Ht & Ho & Hp);
        [apply Hnd' | simpl in *; lia |].
      exists w'. cbn [stdin clock stdout tmpdir outdir] in *.
      rewrite Hrun, <- app_assoc. repeat split; auto.
      rewrite Hp, prompts_of_app. simpl. now rewrite <- app_assoc.
Qed.

Lemma collected_keys (placeholders lines : list str) (day : str) :
  length (prompted placeholders) <= length lines ->
  keys (collected placeholders lines day) = placeholders.
Proof.
  revert lines; induction placeholders as [|k ps IH]; intros lines; simpl;
    [reflexivity|].
  destruct (is_date k); simpl; intros H.
  - now rewrite IH.
  - destruct lines as [|l ls]; simpl in *; [lia|]. rewrite IH; [reflexivity | lia].
Qed.

Lemma collected_date (placeholders lines : list str) (day k : str) :
  length (prompted placeholders) <= length lines ->
  In k placeholders -> is_date k = true ->
  In (k, day) (collected placeholders lines day).
Proof.
  revert lines; induction placeholders as [|k' ps IH]; intros lines; simpl;
    [tauto|].
  destruct (is_date k') eqn:Ek; simpl; intros Hl [->|Hin] Hd.
  - now left.
  - right. now apply IH.
  - congruence.
  - destruct lines as [|l ls]; simpl in *; [lia|]. right. apply IH; auto. lia.
Qed.

Lemma collected_prompted (placeholders lines : list str) (day k : str) (i : nat) :
  length (prompted placeholders) <= length lines ->
  nth_error (prompted placeholders) i = Some k ->
  exists line, nth_error lines i = Some line
               /\ In (k, strip line) (collected placeholders lines day).
Proof.
  revert lines i; induction placeholders as [|k' ps IH]; intros lines i; simpl.
  - intros _ H. destruct i; discriminate H.
  - destruct (is_date k') eqn:Ek; simpl; intros Hl Hn.
    + destruct (IH lines i Hl Hn) as (line & H1 & H2). exists line. auto.
    + destruct lines as [|l ls]; simpl in *; [lia|].
      destruct i as [|i]; simpl in *.
      * injection Hn as <-. exists l. auto.
      * destruct (IH ls i) as (line & H1 & H2); [lia | exact Hn |].
        exists line. auto.
Qed.

(** The characters [str.strip] removes, by code point: the tabulator to
    the carriage return, the four separators, the space, the next-line
    control and the no-break space. *)
Definition whitespace (c : ascii) : Prop :=
  In (N_of_ascii c) [9; 10; 11; 12; 13; 28; 29; 30; 31; 32; 133; 160]%N.

(** [v] is [line] without the whitespace at its two ends. *)
Definition trimmed_of (line v : str) : Prop :=
  exists ws1 ws2,
    line = ws1 ++ v ++ ws2
    /\ Forall whitespace ws1 /\ Forall whitespace ws2
    /\ (forall c t, v = c :: t -> ~ whitespace c)
    /\ (forall c t, v = t ++ [c] -> ~ whitespace c).

(** A name that is [date] but for the case of its letters. *)
Definition date_name (k : str) : Prop :=
  exists d a t e,
    k = [d; a; t; e]
    /\ In d (py "dD") /\ In a (py "aA") /\ In t (py "tT") /\ In e (py "eE").

Lemma isspace_whitespace (c : ascii) : isspace c = true <-> whitespace c.
Proof.
  unfold isspace, whitespace. cbv zeta. generalize (N_of_ascii c). intros n.
  rewrite !orb_true_iff, !andb_true_iff, !N.leb_le, !N.eqb_eq. simpl. lia.
Qed.

Lemma not_whitespace (c : ascii) : isspace c = false -> ~ whitespace c.
Proof. intros H Hw. apply isspace_whitespace in Hw. congruence. Qed.

Lemma lstrip_split (s : str) :
  exists ws, s = ws ++ lstrip s /\ Forall whitespace ws.
Proof.
  induction s as [|c s (ws & IH & Hws)]; simpl; [now exists []|].
  destruct (isspace c) eqn:E; [|now exists []].
  exists (c :: ws). split; [simpl; now rewrite <- IH|].
  constructor; [now apply isspace_whitespace | exact Hws].
Qed.

(** What [strip] returns is its argument without the whitespace at its
    two ends. *)
Lemma strip_spec (line : str) : trimmed_of line (strip line).
Proof.
  destruct (lstrip_split line) as (ws1 & E1 & H1).
  destruct (lstrip_split (rev (lstrip line))) as (ws2 & E2 & H2).
  exists ws1, (rev ws2). split; [|split; [exact H1|split; [now apply Forall_rev|]]].
  - unfold strip, rstrip. rewrite <- rev_app_distr, <- E2, rev_involutive.
    exact E1.
  - destruct (strip_trimmed line) as [Hh Hl].
    split; intros c t E; apply not_whitespace; eauto.
Qed.

Lemma lower_char_date (c : ascii) :
  (lower_char c = "d"%char -> In c (py "dD"))
  /\ (lower_char c = "a"%char -> In c (py "aA"))
  /\ (lower_char c = "t"%char -> In c (py "tT"))
  /\ (lower_char c = "e"%char -> In c (py "eE")).
Proof.
  destruct c as [[] [] [] [] [] [] [] []]; vm_compute;
    repeat split; intros H; try discriminate H; auto.
Qed.

(** The test of the collector, on the characters of the name. *)
Lemma lower_date_name (k : str) : lower k = py "date" <-> date_name k.
Proof.
  split.
  - destruct k as [|d [|a [|t [|e [|x k]]]]]; try discriminate.
    intros [= Hd Ha Ht He]. exists d, a, t, e.
    split; [reflexivity|].
    split; [now apply (lower_char_date d)|].
    split; [now apply (lower_char_date a)|].
    split; [now apply (lower_char_date t) | now apply (lower_char_date e)].
  - intros (d & a & t & e & -> & Hd & Ha & Ht & He).
    destruct Hd as [<-|[<-|[]]]; destruct Ha as [<-|[<-|[]]];
      destruct Ht as [<-|[<-|[]]]; destruct He as [<-|[<-|[]]]; reflexivity.
Qed.

Lemma is_date_name (k : str) : is_date k = true <-> date_name k.
Proof.
  rewrite <- lower_date_name. unfold is_date.
  destruct (str_eq_dec (lower k) (py "date")); split; congruence.
Qed.

(** C8.  For a list of distinct placeholder names, as the scanner returns
    them, and enough typed lines for the names that are asked for: the
    collector returns a mapping whose keys are the names, each once and in
    order.  A name that is [date] but for the case of its letters gets the
    date of the clock, and no prompt is written and no line read for it;
    the other names are asked for in order, and the i-th of them gets the
    i-th typed line without the whitespace at its two ends, be it
    empty. *)
Theorem C8_prompt_for_values (placeholders : list str) (w : world) :
  NoDup placeholders ->
  length (prompted placeholders) <= length (stdin w) ->
  exists values w',
    prompt_for_values placeholders w = (Ret values, w')
    /\ keys values = placeholders
    /\ (forall k, In k placeholders -> date_name k ->
                  dict_get k values = Some (clock w))
    /\ (forall k, In k (prompted placeholders)
                  <-> In k placeholders /\ ~ date_name k)
    /\ (forall i k, nth_error (prompted placeholders) i = Some k ->
          exists line v, nth_error (stdin w) i = Some line
                         /\ dict_get k values = Some v
                         /\ v = strip line /\ trimmed_of line v)
    /\ prompts_of (stdout w')
       = prompts_of (stdout w) ++ map prompt_msg (prompted placeholders)
    /\ stdin w' = skipn (length (prompted placeholders)) (stdin w).
Proof.
  intros Hnd Hlen. unfold prompt_for_values, bind at 1 2, print.
  cbn beta iota.
  destruct (prompt_loop_collects placeholders []
              (mkWorld (stdin w)
                 ((stdout w ++ [Print (NL :: py "Enter values for each field:")])
                    ++ [Print (repeat "-"%char 40)])
                 (clock w) (tmpdir w) (outdir w)))
    as (w' & Hrun & Hin & _ & _ & _ & Hp); [exact Hnd | exact Hlen |].
  cbn [stdin clock stdout tmpdir outdir app] in *.
  pose proof (collected_keys placeholders (stdin w) (clock w) Hlen) as Hkeys.
  exists (collected placeholders (stdin w) (clock w)), w'.
  split; [exact Hrun|]. split; [exact Hkeys|].
  assert (Hnk : NoDup (keys (collected placeholders (stdin w) (clock w))))
    by now rewrite Hkeys.
  split; [|split; [|split; [|split]]].
  - intros k Hk Hd. apply dict_get_In; [exact Hnk|].
    apply collected_date; auto. now apply is_date_name.
  - intros k. unfold prompted. rewrite filter_In, <- is_date_name.
    destruct (is_date k); simpl; intuition congruence.
  - intros i k Hi.
    destruct (collected_prompted placeholders (stdin w) (clock w) k i Hlen Hi)
      as (line & H1 & H2).
    exists line, (strip line). split; [exact H1|].
    split; [now apply dict_get_In|]. split; [reflexivity | apply strip_spec].
  - rewrite Hp, !prompts_of_app. simpl. now rewrite !app_nil_r.
  - exact Hin.
Qed.

Definition world_typed : world :=
  mkWorld [py " Globex "; []] [] (py "2024-01-01") [] [].

Example prompt_for_values_typed :
  fst (prompt_for_values [py "Company Name"; py "DATE"; py "Role"] world_typed)
  = Ret [(py "Company Name", py "Globex"); (py "DATE", py "2024-01-01");
         (py "Role", [])].
Proof. vm_compute. reflexivity. Qed.

Lemma C8_prompt_witness :
  exists values w',
    prompt_for_values [py "Company Name"; py "DATE"; py "Role"] world_typed
    = (Ret values, w')
    /\ keys values = [py "Company Name"; py "DATE"; py "Role"]
    /\ dict_get (py "DATE") values = Some (py "2024-01-01")
    /\ dict_get (py "Company Name") values = Some (py "Globex")
    /\ dict_get (py "Role") values = Some [].
Proof.
  destruct (C8_prompt_for_values [py "Company Name"; py "DATE"; py "Role"]
              world_typed)
    as (values & w' & Hrun & Hkeys & Hdate & _ & Hline & _).
  - repeat constructor; simpl; intuition discriminate.
  - apply Nat.leb_le. vm_compute. reflexivity.
  - exists values, w'. split; [exact Hrun|]. split; [exact Hkeys|].
    split; [|split].
    + apply Hdate; [simpl; tauto|].
      exists "D"%char, "A"%char, "T"%char, "E"%char. simpl. tauto.
    + destruct (Hline 0 (py "Company Name")) as (line & v & Hl & Hv & -> & _).
      { vm_compute. reflexivity. }
      injection Hl as <-. rewrite Hv. vm_compute. reflexivity.
    + destruct (Hline 1 (py "Role")) as (line & v & Hl & Hv & -> & _).
      { vm_compute. reflexivity. }
      injection Hl as <-. rewrite Hv. vm_compute. reflexivity.
Defined.

(** ** Directories and file names *)

Lemma dir_exists_In (name : str) (d : directory) :
  dir_exists name d = true <-> In name (map fst d).
Proof.
  unfold dir_exists. destruct (in_dec str_eq_dec name (map fst d)).
  - tauto.
  - split; [discriminate | contradiction].
Qed.

Lemma dir_read_None_In (name : str) (d : directory) :
  dir_read name d = None <-> ~ In name (map fst d).
Proof.
  unfold dir_read. induction d as [|[k v] d IH]; simpl; [tauto|].
  destruct (str_eq_dec name k) as [->|Hn].
  - split; [discriminate | tauto].
  - rewrite IH. split; [intros H [E|E]; congruence | tauto].
Qed.

Lemma dir_read_None (name : str) (d : directory) :
  dir_read name d = None <-> dir_exists name d = false.
Proof.
  rewrite dir_read_None_In, <- dir_exists_In.
  destruct (dir_exists name d); split; congruence.
Qed.

Lemma dir_exists_remove (name : str) (d : directory) :
  dir_exists name (dir_remove name d) = false.
Proof.
  destruct (dir_exists name (dir_remove name d)) eqn:E; [|reflexivity].
  apply dir_exists_In, in_map_iff in E. destruct E as ([k v] & <- & H).
  apply filter_In in H. simpl in H. destruct H as [_ H].
  now destruct (str_eq_dec k k).
Qed.

Lemma dir_read_remove_other (name other : str) (d : directory) :
  name <> other -> dir_read other (dir_remove name d) = dir_read other d.
Proof.
  intros Hn. unfold dir_read. induction d as [|[k v] d IH]; simpl; [reflexivity|].
  destruct (str_eq_dec name k) as [->|Hk]; simpl.
  - destruct (str_eq_dec other k); [congruence | exact IH].
  - destruct (str_eq_dec other k); [reflexivity | exact IH].
Qed.

Lemma dir_read_write_other (name other content : str) (d : directory) :
  name <> other -> dir_read other (dir_write name content d) = dir_read other d.
Proof.
  intros Hn. unfold dir_write, dir_read. simpl.
  destruct (str_eq_dec other name); [congruence|].
  now apply dir_read_remove_other.
Qed.


Lemma py_inj (a b : string) : py a = py b -> a = b.
Proof.
  unfold py. intros H. apply (f_equal string_of_list_ascii) in H.
  now rewrite !string_of_list_ascii_of_string in H.
Qed.

Lemma str_of_nat_inj (i j : nat) : str_of_nat i = str_of_nat j -> i = j.
Proof.
  unfold str_of_nat. intros H. apply py_inj in H.
  apply (f_equal DecimalString.NilEmpty.uint_of_string) in H.
  rewrite !DecimalString.NilEmpty.usu in H. injection H as H.
  now apply DecimalNat.Unsigned.to_uint_inj.
Qed.

Lemma numbered_name_inj (sc ds : str) (i j : nat) :
  numbered_name sc ds i = numbered_name sc ds j -> i = j.
Proof.
  unfold numbered_name. intros H.
  repeat apply app_inv_head in H. apply app_inv_tail in H.
  now apply str_of_nat_inj.
Qed.

Lemma pdf_name_not_numbered (sc ds : str) (j : nat) :
  pdf_name_of sc ds <> numbered_name sc ds j.
Proof.
  unfold pdf_name_of, numbered_name. intros H.
  do 4 apply app_inv_head in H. discriminate H.
Qed.

(** ** The search for a free name *)

Section FreeName.

Variable exists_error : str -> option exn.
Variable d : directory.
Variables safe_company date_str : str.

Let numbered := numbered_name safe_company date_str.

(** What the loop returns is free and was looked up without an error; it
    is the name it started from, or that name is taken and so is every
    numbered name before the one returned. *)
Lemma free_name_loop_spec (fuel : nat) :
  forall (name : str) (c : nat) (res : str),
  free_name_loop exists_error fuel d safe_company date_str name c = Ret res ->
  dir_exists res d = false
  /\ exists_error res = None
  /\ (res = name
      \/ (dir_exists name d = true
          /\ exists j, c <= j /\ res = numbered j
               /\ forall i, c <= i < j -> dir_exists (numbered i) d = true)).
Proof.
  induction fuel as [|fuel IH]; intros name c res; simpl; [discriminate|].
  destruct (exists_error name) eqn:Ee; [discriminate|].
  destruct (dir_exists name d) eqn:E.
  - intros H.
    destruct (IH _ _ _ H) as (Hfree & Hok & [->|(Hc & j & Hj & -> & Hall)]).
    + split; [exact Hfree|]. split; [exact Hok|]. right. split; [reflexivity|].
      exists c. repeat split; auto. intros i Hi. lia.
    + split; [exact Hfree|]. split; [exact Hok|]. right. split; [reflexivity|].
      exists j. repeat split; [lia|]. intros i Hi.
      destruct (Nat.eq_dec i c) as [->|Hn]; [exact Hc | apply Hall; lia].
  - intros [= <-]. auto.
Qed.

(** An error the loop raises is one of a look-up. *)
Lemma free_name_loop_raise (fuel : nat) :
  forall (name : str) (c : nat) (e : exn),
  free_name_loop exists_error fuel d safe_company date_str name c = Raise e ->
  exists tried, exists_error tried = Some e.
Proof.
  induction fuel as [|fuel IH]; intros name c e; simpl; [discriminate|].
  destruct (exists_error name) as [e'|] eqn:Ee.
  - intros [= <-]. now exists name.
  - destruct (dir_exists name d); [apply IH | discriminate].
Qed.

(** The loop ends within its fuel: the names it tries are pairwise
    distinct, and each one that is taken is one more file of the
    directory. *)
Lemma free_name_loop_total (fuel : nat) :
  forall (rem : list str) (name : str) (c : nat),
  (forall x, dir_exists x d = true ->
             x = name \/ (exists j, c <= j /\ x = numbered j) -> In x rem) ->
  (forall j, c <= j -> name <> numbered j) ->
  length rem < fuel ->
  free_name_loop exists_error fuel d safe_company date_str name c <> Diverge.
Proof.
  induction fuel as [|fuel IH]; intros rem name c Hrem Hname Hlen; [lia|].
  simpl. destruct (exists_error name); [discriminate|].
  destruct (dir_exists name d) eqn:E; [|discriminate].
  assert (Hin : In name rem) by (apply Hrem; auto).
  apply (IH (remove str_eq_dec name rem)).
  - intros x Hx Hcase. apply in_in_remove.
    + destruct Hcase as [->|(j & Hj & ->)]; intros Heq; symmetry in Heq;
        revert Heq; apply Hname; lia.
    + apply Hrem; [exact Hx|]. right.
      destruct Hcase as [->|(j & Hj & ->)]; [exists c | exists j]; split; auto; lia.
  - intros j Hj Heq. apply numbered_name_inj in Heq. lia.
  - pose proof (remove_length_lt str_eq_dec rem name Hin). lia.
Qed.

Lemma free_name_found (name : str) :
  (forall j, name <> numbered j) ->
  free_name_loop exists_error (S (length d)) d safe_company date_str name 1
  <> Diverge.
Proof.
  intros Hname.
  apply (free_name_loop_total (S (length d)) (map fst d)).
  - intros x Hx _. now apply dir_exists_In.
  - intros j _. apply Hname.
  - rewrite length_map. lia.
Qed.

End FreeName.

(** ** The export pipeline *)

(** Worlds that differ from [w] in one component. *)
Definition with_tmpdir (d : directory) (w : world) : world :=
  mkWorld (stdin w) (stdout w) (clock w) d (outdir w).
Definition with_outdir (d : directory) (w : world) : world :=
  mkWorld (stdin w) (stdout w) (clock w) (tmpdir w) d.
Definition with_print (line : str) (w : world) : world :=
  mkWorld (stdin w) (stdout w ++ [Print line]) (clock w) (tmpdir w) (outdir w).

Lemma bind_ret_run {A B : Type} (m : M A) (k : A -> M B) (w w' : world) (a : A) :
  m w = (Ret a, w') -> bind m k w = k a w'.
Proof. intros H. unfold bind. now rewrite H. Qed.

Lemma bind_raise_run {A B : Type} (m : M A) (k : A -> M B) (w w' : world)
    (e : exn) :
  m w = (Raise e, w') -> bind m k w = (Raise e, w').
Proof. intros H. unfold bind. now rewrite H. Qed.

Lemma try_finally_run {A : Type} (body : M A) (cleanup : M unit)
    (w w1 w2 : world) (r : outcome A) :
  body w = (r, w1) -> r <> Diverge -> cleanup w1 = (Ret tt, w2) ->
  try_finally body cleanup w = (r, w2).
Proof.
  intros Hb Hr Hc. unfold try_finally. rewrite Hb.
  destruct r; [| |congruence]; now rewrite Hc.
Qed.

Lemma remove_temp_run (temp_docx : str) (w : world) :
  exists w',
    remove_temp temp_docx w = (Ret tt, w')
    /\ dir_exists temp_docx (tmpdir w') = false
    /\ outdir w' = outdir w /\ stdout w' = stdout w.
Proof.
  unfold remove_temp, bind, get_world, set_tmpdir, ret.
  destruct (dir_exists temp_docx (tmpdir w)) eqn:E.
  - eexists. split; [reflexivity|]. simpl. auto using dir_exists_remove.
  - exists w. auto.
Qed.

(** The name the export settles on in the directory [d]: it is free; it is
    the candidate when that is free, else the first free numbered name. *)
Definition chosen_name (d : directory) (sc ds final : str) : Prop :=
  dir_exists final d = false
  /\ ((dir_exists (pdf_name_of sc ds) d = false /\ final = pdf_name_of sc ds)
      \/ (dir_exists (pdf_name_of sc ds) d = true
          /\ exists j, 1 <= j /\ final = numbered_name sc ds j
               /\ forall i, 1 <= i < j ->
                     dir_exists (numbered_name sc ds i) d = true)).

Section PipelineFacts.

Variable rnd : str.
Variable docx_save : world -> document -> exn + str.
Variable soffice : world -> str -> soffice_outcome.
Variable rename_replaces : bool.
Variable exists_error : str -> option exn.
Variable rename_error : str -> option exn.

(** The temporary file and the file the converter is expected to write. *)
Definition temp_docx_name : str := py "tmp" ++ rnd ++ py ".docx".
Definition temp_pdf_name : str := path_stem temp_docx_name ++ py ".pdf".

(** The world once the temporary file is created, once the document is
    saved in it, and once the converter has exited. *)
Definition world_temp (w : world) : world :=
  with_tmpdir (dir_write temp_docx_name [] (tmpdir w)) w.
Definition world_saved (bytes : str) (w : world) : world :=
  with_tmpdir (dir_write temp_docx_name bytes (tmpdir (world_temp w)))
              (world_temp w).
Definition world_converted (bytes : str) (written : option str) (w : world)
  : world :=
  match written with
  | Some pdf =>
      with_outdir (dir_write temp_pdf_name pdf (outdir w)) (world_saved bytes w)
  | None => world_saved bytes w
  end.

(** The look-ups that settle the name of the artifact in the directory
    [d]: the candidate first, then, if it is taken, the loop. *)
Definition name_search (d : directory) (sc ds : str) : outcome str :=
  match exists_error (pdf_name_of sc ds) with
  | Some e => Raise e
  | None =>
      if dir_exists (pdf_name_of sc ds) d
      then free_name_loop exists_error (S (length d)) d sc ds
             (pdf_name_of sc ds) 1
      else Ret (pdf_name_of sc ds)
  end.

Lemma name_search_spec (d : directory) (sc ds : str) :
  match name_search d sc ds with
  | Ret final => chosen_name d sc ds final /\ exists_error final = None
  | Raise e => exists tried, exists_error tried = Some e
  | Diverge => False
  end.
Proof.
  unfold name_search, chosen_name.
  destruct (exists_error (pdf_name_of sc ds)) as [e|] eqn:Ee; [now exists (pdf_name_of sc ds)|].
  destruct (dir_exists (pdf_name_of sc ds) d) eqn:Ecand; [|auto].
  pose proof (free_name_found exists_error d sc ds (pdf_name_of sc ds)
                (fun j => pdf_name_not_numbered sc ds j)) as Hend.
  destruct (free_name_loop exists_error (S (length d)) d sc ds
              (pdf_name_of sc ds) 1) as [res|e|] eqn:El; [| |congruence].
  - apply free_name_loop_spec in El.
    destruct El as (Hfree & Hok & [->|(_ & j & Hj & -> & Hall)]); [congruence|].
    split; [|exact Hok]. split; [exact Hfree|]. right.
    split; [reflexivity|]. now exists j.
  - now apply free_name_loop_raise in El.
Qed.

(** Without errors of the look-ups a name is settled on. *)
Lemma name_search_found (d : directory) (sc ds : str) :
  (forall name, exists_error name = None) ->
  exists final, name_search d sc ds = Ret final /\ chosen_name d sc ds final.
Proof.
  intros Hok. pose proof (name_search_spec d sc ds) as H.
  destruct (name_search d sc ds) as [final|e|]; [|exfalso|destruct H].
  - exists final. tauto.
  - destruct H as [tried H]. rewrite Hok in H. discriminate H.
Qed.

Lemma doc_save_run (doc : document) (temp_docx : str) (w : world) :
  doc_save docx_save doc temp_docx w
  = match docx_save w doc with
    | inl e => (Raise e, w)
    | inr bytes => (Ret tt, with_tmpdir (dir_write temp_docx bytes (tmpdir w)) w)
    end.
Proof.
  unfold doc_save, bind, get_world. now destruct (docx_save w doc).
Qed.

Lemma subprocess_run_run (temp_docx : str) (w : world) :
  subprocess_run soffice temp_docx w
  = match soffice w temp_docx with
    | LaunchError e => (Raise e, w)
    | Exited rc err written =>
        (Ret (rc, err),
         match written with
         | Some pdf =>
             with_outdir (dir_write (path_stem temp_docx ++ py ".pdf") pdf
                                    (outdir w)) w
         | None => w
         end)
    end.
Proof.
  unfold subprocess_run, bind, get_world.
  destruct (soffice w temp_docx) as [e|rc err [pdf|]]; reflexivity.
Qed.

Lemma path_exists_run (name : str) (w : world) :
  path_exists exists_error name w
  = match exists_error name with
    | Some e => (Raise e, w)
    | None => (Ret (dir_exists name (outdir w)), w)
    end.
Proof.
  unfold path_exists, bind, get_world. now destruct (exists_error name).
Qed.

Lemma rename_run (src dst : str) (w : world) :
  rename rename_replaces rename_error src dst w
  = match dir_read src (outdir w) with
    | None => (Raise (Error (py "FileNotFoundError")), w)
    | Some content =>
        match rename_error dst with
        | Some e => (Raise e, w)
        | None =>
            if dir_exists dst (outdir w) && negb rename_replaces
            then (Raise FileExistsError, w)
            else (Ret tt, with_outdir (dir_write dst content
                                         (dir_remove src (outdir w))) w)
        end
    end.
Proof.
  unfold rename, bind, get_world. destruct (dir_read src (outdir w)); [|reflexivity].
  destruct (rename_error dst); [reflexivity|].
  now destruct (dir_exists dst (outdir w) && negb rename_replaces).
Qed.

(** What the [try] block does from the world [world_temp w], case by
    case. *)
Lemma convert_and_rename_run (doc : document) (sc : str) (w : world) :
  let body := convert_and_rename docx_save soffice rename_replaces
                exists_error rename_error doc
                sc (clock w) (pdf_name_of sc (clock w)) temp_docx_name in
  body (world_temp w)
  = match docx_save (world_temp w) doc with
    | inl e => (Raise e, world_temp w)
    | inr bytes =>
        match soffice (world_saved bytes w) temp_docx_name with
        | LaunchError e => (Raise e, world_saved bytes w)
        | Exited rc err written =>
            let w3 := world_converted bytes written w in
            if (rc =? 0)%Z then
              match name_search (outdir w3) sc (clock w) with
              | Ret final =>
                  match exists_error temp_pdf_name with
                  | Some e => (Raise e, w3)
                  | None =>
                      match dir_read temp_pdf_name (outdir w3) with
                      | Some content =>
                          match rename_error final with
                          | Some e => (Raise e, w3)
                          | None =>
                              (Ret (Some final),
                               with_outdir
                                 (dir_write final content
                                    (dir_remove temp_pdf_name (outdir w3))) w3)
                          end
                      | None =>
                          (Ret None,
                           with_print (NL :: py "Error: PDF was not created.") w3)
                      end
                  end
              | Raise e => (Raise e, w3)
              | Diverge => (Diverge, w3)
              end
            else
              (Ret None,
               with_print (NL :: py "Error converting to PDF: " ++ err) w3)
        end
    end.
Proof.
  intros body. subst body. unfold convert_and_rename.
  pose proof (doc_save_run doc temp_docx_name (world_temp w)) as Hsave.
  destruct (docx_save (world_temp w) doc) as [e|bytes].
  { now apply bind_raise_run. }
  fold (world_saved bytes w) in Hsave. rewrite (bind_ret_run _ _ _ _ _ Hsave).
  pose proof (subprocess_run_run temp_docx_name (world_saved bytes w)) as Hconv.
  fold temp_pdf_name in Hconv.
  destruct (soffice (world_saved bytes w) temp_docx_name) as [e|rc err written].
  { now apply bind_raise_run. }
  fold (world_converted bytes written w) in Hconv.
  rewrite (bind_ret_run _ _ _ _ _ Hconv). cbn [fst snd].
  set (w3 := world_converted bytes written w).
  destruct (rc =? 0)%Z; cbn [negb]; [|reflexivity].
  fold temp_pdf_name.
  pose proof (name_search_spec (outdir w3) sc (clock w)) as Hspec.
  assert (Hname :
    forall (k : str -> M (option str)),
    (taken <- path_exists exists_error (pdf_name_of sc (clock w)) ;;
     final <- (if taken then free_name exists_error sc (clock w)
                              (pdf_name_of sc (clock w))
               else ret (pdf_name_of sc (clock w))) ;;
     k final) w3
    = match name_search (outdir w3) sc (clock w) with
      | Ret final => k final w3
      | Raise e => (Raise e, w3)
      | Diverge => (Diverge, w3)
      end).
  { intros k. unfold bind at 1. rewrite path_exists_run. unfold name_search.
    destruct (exists_error (pdf_name_of sc (clock w))); [reflexivity|].
    unfold bind, free_name, ret.
    destruct (dir_exists (pdf_name_of sc (clock w)) (outdir w3)); [|reflexivity].
    now destruct (free_name_loop exists_error (S (length (outdir w3))) (outdir w3)
                    sc (clock w) (pdf_name_of sc (clock w)) 1). }
  rewrite Hname. clear Hname.
  destruct (name_search (outdir w3) sc (clock w)) as [final|e|];
    [|reflexivity|reflexivity].
  destruct Hspec as [[Hfree _] _].
  unfold bind at 1. rewrite path_exists_run.
  destruct (exists_error temp_pdf_name) as [e|]; [reflexivity|].
  destruct (dir_exists temp_pdf_name (outdir w3)) eqn:Etmp.
  - destruct (dir_read temp_pdf_name (outdir w3)) as [content|] eqn:Eread.
    2:{ apply dir_read_None in Eread. congruence. }
    unfold bind. rewrite rename_run, Eread.
    destruct (rename_error final); [reflexivity|].
    rewrite Hfree. reflexivity.
  - apply dir_read_None in Etmp. rewrite Etmp. reflexivity.
Qed.

Lemma save_as_pdf_unfold (doc : document) (company_name : str) (w : world) :
  save_as_pdf rnd docx_save soffice rename_replaces exists_error rename_error
    doc company_name w
  = try_finally
      (convert_and_rename docx_save soffice rename_replaces
         exists_error rename_error doc
         (safe_company_of company_name) (clock w)
         (pdf_name_of (safe_company_of company_name) (clock w)) temp_docx_name)
      (remove_temp temp_docx_name) (world_temp w).
Proof. reflexivity. Qed.

(** Whatever way the [try] block ends, the [finally] block then removes
    the temporary file and touches nothing else. *)
Lemma save_as_pdf_finally (doc : document) (company_name : str)
    (w w1 : world) (r : outcome (option str)) :
  convert_and_rename docx_save soffice rename_replaces
    exists_error rename_error doc
    (safe_company_of company_name) (clock w)
    (pdf_name_of (safe_company_of company_name) (clock w)) temp_docx_name
    (world_temp w) = (r, w1) ->
  r <> Diverge ->
  exists w',
    save_as_pdf rnd docx_save soffice rename_replaces exists_error rename_error
      doc company_name w = (r, w')
    /\ dir_exists temp_docx_name (tmpdir w') = false
    /\ outdir w' = outdir w1 /\ stdout w' = stdout w1.
Proof.
  intros Hbody Hr.
  destruct (remove_temp_run temp_docx_name w1) as (w' & Hclean & Hgone & Ho & Hs).
  exists w'. rewrite save_as_pdf_unfold.
  rewrite (try_finally_run _ _ _ _ _ _ Hbody Hr Hclean). auto.
Qed.

Lemma path_stem_head (c : ascii) (s : str) :
  exists t, path_stem (c :: s) = c :: t.
Proof.
  unfold path_stem. destruct (drop_suffix (c :: s)) as [[|a st]|] eqn:E;
    try (now exists s).
  destruct (Nat.eqb (S (length (a :: st))) (length (c :: s))); [now exists s|].
  simpl in E. destruct (drop_suffix s) as [t|].
  - injection E as <- _. now exists st.
  - destruct (c =? ".")%char; discriminate E.
Qed.

(** The names of artifacts are not the name the converter writes to. *)
Lemma artifact_name_not_temp (sc ds : str) :
  pdf_name_of sc ds <> temp_pdf_name
  /\ forall j, numbered_name sc ds j <> temp_pdf_name.
Proof.
  unfold temp_pdf_name, temp_docx_name.
  destruct (path_stem_head "t" (py "mp" ++ rnd ++ py ".docx")) as [t Ht].
  change (py "tmp" ++ rnd ++ py ".docx")
    with ("t"%char :: py "mp" ++ rnd ++ py ".docx").
  rewrite Ht. split; [|intros j]; discriminate.
Qed.

(** How the [try] block ends: never by a loop without end; with an
    exception of [doc.save], of the start of the converter, of a look-up
    or of the renaming; with no artifact and one message; or with the
    artifact. *)
Inductive try_end (doc : document) (sc : str) (w : world)
  : outcome (option str) -> world -> Prop :=
| end_save_raises (e : exn) :
    docx_save (world_temp w) doc = inl e ->
    try_end doc sc w (Raise e) (world_temp w)
| end_launch_raises (bytes : str) (e : exn) :
    docx_save (world_temp w) doc = inr bytes ->
    soffice (world_saved bytes w) temp_docx_name = LaunchError e ->
    try_end doc sc w (Raise e) (world_saved bytes w)
| end_exit_status (bytes : str) (rc : Z) (err : str) (written : option str) :
    docx_save (world_temp w) doc = inr bytes ->
    soffice (world_saved bytes w) temp_docx_name = Exited rc err written ->
    rc <> 0%Z ->
    try_end doc sc w (Ret None)
      (with_print (NL :: py "Error converting to PDF: " ++ err)
                  (world_converted bytes written w))
| end_lookup_raises (bytes err : str) (written : option str)
    (tried : str) (e : exn) :
    docx_save (world_temp w) doc = inr bytes ->
    soffice (world_saved bytes w) temp_docx_name = Exited 0 err written ->
    exists_error tried = Some e ->
    try_end doc sc w (Raise e) (world_converted bytes written w)
| end_not_created (bytes err : str) (written : option str) :
    docx_save (world_temp w) doc = inr bytes ->
    soffice (world_saved bytes w) temp_docx_name = Exited 0 err written ->
    dir_exists temp_pdf_name (outdir (world_converted bytes written w)) = false ->
    try_end doc sc w (Ret None)
      (with_print (NL :: py "Error: PDF was not created.")
                  (world_converted bytes written w))
| end_rename_raises (bytes err : str) (written : option str)
    (final : str) (e : exn) :
    docx_save (world_temp w) doc = inr bytes ->
    soffice (world_saved bytes w) temp_docx_name = Exited 0 err written ->
    dir_exists temp_pdf_name (outdir (world_converted bytes written w)) = true ->
    chosen_name (outdir (world_converted bytes written w)) sc (clock w) final ->
    rename_error final = Some e ->
    try_end doc sc w (Raise e) (world_converted bytes written w)
| end_artifact (bytes err : str) (written : option str) (final content : str) :
    docx_save (world_temp w) doc = inr bytes ->
    soffice (world_saved bytes w) temp_docx_name = Exited 0 err written ->
    dir_read temp_pdf_name (outdir (world_converted bytes written w))
    = Some content ->
    chosen_name (outdir (world_converted bytes written w)) sc (clock w) final ->
    exists_error final = None -> rename_error final = None ->
    try_end doc sc w (Ret (Some final))
      (with_outdir
         (dir_write final content
            (dir_remove temp_pdf_name (outdir (world_converted bytes written w))))
         (world_converted bytes written w)).

Lemma convert_and_rename_ends (doc : document) (sc : str) (w : world) :
  exists r w1,
    convert_and_rename docx_save soffice rename_replaces
      exists_error rename_error doc
      sc (clock w) (pdf_name_of sc (clock w)) temp_docx_name (world_temp w)
    = (r, w1)
    /\ try_end doc sc w r w1.
Proof.
  pose proof (convert_and_rename_run doc sc w) as Hrun. cbv zeta in Hrun.
  rewrite Hrun. clear Hrun.
  destruct (docx_save (world_temp w) doc) as [e|bytes] eqn:Hsave.
  { eexists _, _. split; [reflexivity|]. now constructor. }
  destruct (soffice (world_saved bytes w) temp_docx_name) as [e|rc err written]
    eqn:Hconv.
  { eexists _, _. split; [reflexivity|]. now apply (end_launch_raises _ _ _ bytes). }
  destruct (Z.eqb_spec rc 0) as [->|Hrc].
  2:{ eexists _, _. split; [reflexivity|].
      now apply (end_exit_status _ _ _ bytes rc err written). }
  pose proof (name_search_spec (outdir (world_converted bytes written w)) sc (clock w))
    as Hspec.
  destruct (name_search (outdir (world_converted bytes written w)) sc (clock w))
    as [final|e|]; [| |destruct Hspec].
  2:{ destruct Hspec as [tried Ht]. eexists _, _. split; [reflexivity|].
      now apply (end_lookup_raises _ _ _ bytes err written tried). }
  destruct Hspec as [Hchosen Hok].
  destruct (exists_error temp_pdf_name) as [e|] eqn:Et.
  { eexists _, _. split; [reflexivity|].
    now apply (end_lookup_raises _ _ _ bytes err written temp_pdf_name). }
  destruct (dir_read temp_pdf_name (outdir (world_converted bytes written w)))
    as [content|] eqn:Eread.
  - destruct (rename_error final) as [e|] eqn:Er.
    + eexists _, _. split; [reflexivity|].
      apply (end_rename_raises _ _ _ bytes err written final); auto.
      destruct (dir_exists temp_pdf_name
                  (outdir (world_converted bytes written w))) eqn:E;
        [reflexivity|]. apply dir_read_None in E. congruence.
    + eexists _, _. split; [reflexivity|].
      now apply (end_artifact _ _ _ bytes err written).
  - eexists _, _. split; [reflexivity|].
    apply (end_not_created _ _ _ bytes err written); auto.
    now apply dir_read_None.
Qed.

Lemma try_end_ends (doc : document) (sc : str) (w : world)
    (r : outcome (option str)) (w1 : world) :
  try_end doc sc w r w1 -> r <> Diverge.
Proof. destruct 1; discriminate. Qed.

(** The export, as the [try] block followed by the removal of the
    temporary file. *)
Lemma save_as_pdf_ends (doc : document) (company_name : str) (w : world) :
  exists r w1 w',
    save_as_pdf rnd docx_save soffice rename_replaces exists_error rename_error
      doc company_name w = (r, w')
    /\ try_end doc (safe_company_of company_name) w r w1
    /\ dir_exists temp_docx_name (tmpdir w') = false
    /\ outdir w' = outdir w1 /\ stdout w' = stdout w1.
Proof.
  destruct (convert_and_rename_ends doc (safe_company_of company_name) w)
    as (r & w1 & Hbody & Hend).
  destruct (save_as_pdf_finally doc company_name w w1 r Hbody
              (try_end_ends _ _ _ _ _ Hend)) as (w' & Hrun & Hgone & Ho & Hs).
  exists r, w1, w'. auto.
Qed.

(** C6.  Whatever [doc.save], the converter and the file system do,
    [save_as_pdf] ends, by returning or by raising, and the temporary
    [.docx] file is then gone: when saving raises, when the converter
    cannot be started, when it exits with a status other than zero, when
    its output is missing, when a look-up or the renaming raises, and when
    the export succeeds. *)
Theorem C6_temp_file_removed (doc : document) (company_name : str) (w : world) :
  exists r w',
    save_as_pdf rnd docx_save soffice rename_replaces exists_error rename_error
      doc company_name w = (r, w')
    /\ r <> Diverge
    /\ dir_exists temp_docx_name (tmpdir w') = false
    /\ match docx_save (world_temp w) doc with
       | inl e => r = Raise e
       | inr bytes =>
           match soffice (world_saved bytes w) temp_docx_name with
           | LaunchError e => r = Raise e
           | Exited rc err written =>
               if (rc =? 0)%Z then
                 (exists name e,
                     r = Raise e
                     /\ (exists_error name = Some e \/ rename_error name = Some e))
                 \/ (if dir_exists temp_pdf_name
                          (outdir (world_converted bytes written w))
                     then exists final, r = Ret (Some final)
                     else r = Ret None)
               else r = Ret None
           end
       end.
Proof.
  destruct (save_as_pdf_ends doc company_name w)
    as (r & w1 & w' & Hrun & Hend & Hgone & _).
  exists r, w'. split; [exact Hrun|].
  split; [exact (try_end_ends _ _ _ _ _ Hend)|]. split; [exact Hgone|].
  destruct Hend as [e Hs|bytes e Hs Hc|bytes rc err written Hs Hc Hrc
                   |bytes err written tried e Hs Hc He
                   |bytes err written Hs Hc Hno
                   |bytes err written final e Hs Hc Hyes Hch He
                   |bytes err written final content Hs Hc Hread Hch _ _];
    rewrite Hs; try rewrite Hc; try reflexivity.
  - destruct (Z.eqb_spec rc 0); [contradiction | reflexivity].
  - left. exists tried, e. auto.
  - right. now rewrite Hno.
  - left. exists final, e. auto.
  - right. cbn [Z.eqb].
    destruct (dir_exists temp_pdf_name (outdir (world_converted bytes written w)))
      eqn:E; [now exists final|].
    apply dir_read_None in E. congruence.
Qed.



End PipelineFacts.

(** ** The export on concrete worlds *)

Definition env_rnd : str := py "k3x9ab12".

Definition save_ok : world -> document -> exn + str :=
  fun _ _ => inr (py "PK").
Definition save_fails : world -> document -> exn + str :=
  fun _ _ => inl (Error (py "PermissionError")).

Definition soffice_ok : world -> str -> soffice_outcome :=
  fun _ _ => Exited 0 [] (Some (py "%PDF-new")).
Definition soffice_exits_1 : world -> str -> soffice_outcome :=
  fun _ _ => Exited 1 (py "no display") None.
Definition soffice_writes_nothing : world -> str -> soffice_outcome :=
  fun _ _ => Exited 0 [] None.
Definition soffice_missing : world -> str -> soffice_outcome :=
  fun _ _ => LaunchError (Error (py "FileNotFoundError")).

(** A file system that raises no error, and one that refuses the names
    longer than [n] characters. *)
Definition no_fs_error : str -> option exn := fun _ => None.

Definition world_acme : world :=
  mkWorld [] [] (py "2024-01-01") []
          [(py "CoverLetter_Acme_2024-01-01.pdf", py "%PDF-old")].





(** The five ways out, on the world [world_acme]: what is returned or
    raised, and whether the temporary file is still there. *)
Example export_exit_paths :
  let run save soffice :=
    let (r, w') := save_as_pdf env_rnd save soffice false
                               no_fs_error no_fs_error doc_dear (py "Acme")
                               world_acme in
    (r, dir_exists (temp_docx_name env_rnd) (tmpdir w'), map fst (outdir w')) in
  run save_fails soffice_ok
  = (Raise (Error (py "PermissionError")), false,
     [py "CoverLetter_Acme_2024-01-01.pdf"])
  /\ run save_ok soffice_missing
     = (Raise (Error (py "FileNotFoundError")), false,
        [py "CoverLetter_Acme_2024-01-01.pdf"])
  /\ run save_ok soffice_exits_1
     = (Ret None, false, [py "CoverLetter_Acme_2024-01-01.pdf"])
  /\ run save_ok soffice_writes_nothing
     = (Ret None, false, [py "CoverLetter_Acme_2024-01-01.pdf"])
  /\ run save_ok soffice_ok
     = (Ret (Some (py "CoverLetter_Acme_2024-01-01_1.pdf")), false,
        [py "CoverLetter_Acme_2024-01-01_1.pdf";
         py "CoverLetter_Acme_2024-01-01.pdf"]).
Proof. vm_compute. repeat split. Qed.

(* ===================================================================== *)
(** * Further properties *)
(* ===================================================================== *)

(** ** File names *)

Lemma filter_all {A : Type} (f : A -> bool) (l : list A) :
  Forall (fun x => f x = true) l -> filter f l = l.
Proof.
  induction 1 as [|x l Hx _ IH]; simpl; [reflexivity|]. now rewrite Hx, IH.
Qed.

Lemma rstrip_fixed (s : str) :
  (forall c t, s = t ++ [c] -> isspace c = false) -> rstrip s = s.
Proof.
  intros H. unfold rstrip. rewrite lstrip_fixed; [apply rev_involutive|].
  intros c t E. apply (H c (rev t)).
  rewrite <- (rev_involutive s), E. reflexivity.
Qed.

Lemma strip_fixed (s : str) :
  (forall c t, s = c :: t -> isspace c = false) ->
  (forall c t, s = t ++ [c] -> isspace c = false) ->
  strip s = s.
Proof.
  intros Hh Hl. unfold strip. rewrite (lstrip_fixed s Hh). now apply rstrip_fixed.
Qed.

Lemma strip_idempotent (s : str) : strip (strip s) = strip s.
Proof. apply strip_fixed; apply strip_trimmed. Qed.

(** X1.  What [sanitize_filename] returns holds none of the invalid characters,
    only characters of the name it was given, and neither begins nor ends
    with whitespace. *)
Theorem sanitize_filename_clean (name : str) :
  Forall (fun c => is_invalid c = false /\ In c name) (sanitize_filename name)
  /\ match sanitize_filename name with
     | [] => True
     | c :: _ => isspace c = false
     end
  /\ match rev (sanitize_filename name) with
     | [] => True
     | c :: _ => isspace c = false
     end.
Proof.
  split; [|split].
  - apply Forall_forall. intros c Hc.
    apply sanitize_filename_valid in Hc. tauto.
  - rewrite sanitize_filename_filter.
    destruct (strip (filter (fun x => negb (is_invalid x)) name)) as [|c t] eqn:E;
      [exact I|].
    exact (proj1 (strip_trimmed _) c t E).
  - rewrite sanitize_filename_filter.
    destruct (rev (strip (filter (fun x => negb (is_invalid x)) name)))
      as [|c t] eqn:E; [exact I|].
    apply (proj2 (strip_trimmed (filter (fun x => negb (is_invalid x)) name))
             c (rev t)).
    apply (f_equal (@rev ascii)) in E. now rewrite rev_involutive in E.
Qed.

(** X2.  Sanitizing twice is sanitizing once. *)
Theorem sanitize_filename_idempotent (name : str) :
  sanitize_filename (sanitize_filename name) = sanitize_filename name.
Proof.
  rewrite (sanitize_filename_filter (sanitize_filename name)).
  rewrite filter_all.
  - rewrite sanitize_filename_filter. apply strip_idempotent.
  - apply Forall_forall. intros c Hc.
    apply sanitize_filename_valid in Hc. destruct Hc as [_ Hc]. now rewrite Hc.
Qed.

Lemma string_of_uint_digits (d : Decimal.uint) :
  Forall (fun c => is_digit c = true)
         (py (DecimalString.NilEmpty.string_of_uint d)).
Proof.
  induction d; simpl; constructor; try reflexivity; exact IHd.
Qed.

Lemma str_of_nat_digits (n : nat) :
  Forall (fun c => is_digit c = true) (str_of_nat n).
Proof. apply string_of_uint_digits. Qed.

Lemma is_invalid_cases (x : ascii) :
  is_invalid x = true -> In x invalid_chars.
Proof.
  unfold is_invalid. intros H. apply existsb_exists in H.
  destruct H as (y & Hy & E). apply Ascii.eqb_eq in E. now subst.
Qed.

Lemma safe_company_of_valid (company_name : str) (x : ascii) :
  is_invalid x = true -> ~ In x (safe_company_of company_name).
Proof.
  intros Hx Hin. destruct company_name as [|c s].
  - apply is_invalid_cases in Hx. vm_compute in Hx, Hin.
    repeat (destruct Hx as [Hx|Hx]; [subst x; intuition discriminate|]).
    exact Hx.
  - apply sanitize_filename_valid in Hin. destruct Hin as [_ Hin]. congruence.
Qed.

(** X3.  With a date free of them, the name of an artifact, numbered or not,
    holds none of the invalid characters: neither path separator, so the
    artifact lands in the output directory itself. *)
Theorem artifact_name_has_no_invalid_char
    (company_name date_str : str) (counter : nat) (x : ascii) :
  is_invalid x = true -> ~ In x date_str ->
  ~ In x (pdf_name_of (safe_company_of company_name) date_str)
  /\ ~ In x (numbered_name (safe_company_of company_name) date_str counter).
Proof.
  intros Hx Hd.
  pose proof (safe_company_of_valid company_name x Hx) as Hsc.
  assert (Hdig : ~ In x (str_of_nat counter)).
  { intros H. pose proof (str_of_nat_digits counter) as Hall.
    rewrite Forall_forall in Hall. specialize (Hall x H).
    apply is_invalid_cases in Hx. vm_compute in Hx.
    repeat (destruct Hx as [Hx|Hx]; [subst x; discriminate Hall|]).
    exact Hx. }
  assert (Hlit : ~ In x (py "CoverLetter_") /\ ~ In x (py "_")
                 /\ ~ In x (py ".pdf")).
  { apply is_invalid_cases in Hx. vm_compute in Hx. vm_compute.
    repeat (destruct Hx as [Hx|Hx]; [subst x; intuition discriminate|]).
    destruct Hx. }
  destruct Hlit as (H1 & H2 & H3).
  unfold pdf_name_of, numbered_name. split; intros H;
    repeat (apply in_app_or in H; destruct H as [H|H]); tauto.
Qed.

Lemma artifact_name_witness :
  ~ In "/"%char (pdf_name_of (safe_company_of (py "a/b\c")) (py "2024-01-01")).
Proof.
  apply (artifact_name_has_no_invalid_char (py "a/b\c") (py "2024-01-01") 0
           "/"%char).
  - vm_compute. reflexivity.
  - vm_compute. intuition discriminate.
Defined.

(** ** The scanner *)

(** X4.  Every name the scanner returns stands, between brackets, in the text
    of a paragraph of the document. *)
Theorem scanned_names_occur (doc : document) :
  Forall (fun n => exists p, In p (all_paragraphs doc)
                             /\ contains (bracketed n) (text p) = true)
         (extract_placeholders doc).
Proof.
  apply Forall_forall. intros n Hn. apply extract_placeholders_In in Hn.
  destruct Hn as (p & Hp & Hn). exists p. split; [exact Hp|].
  now apply findall_token_occurs.
Qed.

(** A text opens a pair when an [LB] is followed by a character other
    than [RB] and, later, by an [RB]. *)
Definition opens_pair (s : str) : Prop :=
  exists a c t, s = a ++ LB :: c :: t /\ c <> RB /\ In RB t.

Lemma findall_nonempty_opens (s : str) : findall s <> [] <-> opens_pair s.
Proof.
  split.
  - induction s as [|c s m r E IH|c s E IH] using scan_ind.
    + intros H. now contradiction H.
    + intros _. pose proof (match_here_name _ _ _ E) as [Hne Hm].
      apply match_here_Some in E. destruct m as [|x m]; [congruence|].
      exists [], x, (m ++ RB :: r). simpl in *. split; [exact E|].
      split; [intros ->; tauto | apply in_or_app; right; now left].
    + rewrite findall_cons, E. intros H.
      destruct (IH H) as (a & x & t & -> & Hx & Ht).
      now exists (c :: a), x, t.
  - intros (a & c & t & -> & Hc & Ht). now apply findall_open.
Qed.

(** X5.  The scanner returns nothing exactly when no paragraph opens a pair:
    brackets that enclose nothing, or that are never closed, are not
    placeholders. *)
Theorem scan_empty_iff (doc : document) :
  extract_placeholders doc = []
  <-> forall p, In p (all_paragraphs doc) -> ~ opens_pair (text p).
Proof.
  split.
  - intros E p Hp Ho. apply findall_nonempty_opens in Ho.
    destruct (findall (text p)) as [|n l] eqn:En; [congruence|].
    assert (Hn : In n (extract_placeholders doc)).
    { apply extract_placeholders_In. exists p. rewrite En. split; [exact Hp | now left]. }
    rewrite E in Hn. destruct Hn.
  - intros H. apply extract_placeholders_nil. intros p Hp.
    destruct (findall (text p)) as [|n l] eqn:En; [reflexivity|].
    exfalso. apply (H p Hp), findall_nonempty_opens. rewrite En. discriminate.
Qed.

Lemma scan_empty_witness :
  extract_placeholders
    (mkDoc [mkPara [InRun (mkRun (py "[] [") 0); InRun (mkRun (py "x") 1)]] []) = [].
Proof.
  apply (scan_empty_iff (mkDoc [mkPara [InRun (mkRun (py "[] [") 0); InRun (mkRun (py "x") 1)]] [])).
  intros p [<-|[]] Ho. apply findall_nonempty_opens in Ho. apply Ho.
  vm_compute. reflexivity.
Defined.

Lemma str_compare_irrefl (a : str) : str_compare a a <> Lt.
Proof. rewrite str_compare_refl. discriminate. Qed.

(** Two strictly increasing lists with the same members are equal. *)
Lemma strictly_sorted_unique (l1 : list str) :
  forall l2,
  StronglySorted (fun a b => str_compare a b = Lt) l1 ->
  StronglySorted (fun a b => str_compare a b = Lt) l2 ->
  (forall x, In x l1 <-> In x l2) -> l1 = l2.
Proof.
  induction l1 as [|a l1 IH]; intros [|b l2] H1 H2 Hm.
  - reflexivity.
  - exfalso. apply (proj2 (Hm b)). now left.
  - exfalso. apply (proj1 (Hm a)). now left.
  - inversion H1 as [|? ? Hs1 Ha]; inversion H2 as [|? ? Hs2 Hb]; subst.
    rewrite Forall_forall in Ha, Hb.
    assert (Hab : a = b).
    { destruct (proj1 (Hm a) (or_introl eq_refl)) as [E|Hin]; [now symmetry|].
      destruct (proj2 (Hm b) (or_introl eq_refl)) as [E|Hin']; [exact E|].
      exfalso. apply (str_compare_irrefl a).
      apply (str_compare_lt_trans a b a); auto. }
    subst b. f_equal. apply IH; auto. intros x. split; intros Hx.
    + destruct (proj1 (Hm x) (or_intror Hx)) as [E|Hin]; [|exact Hin].
      subst x. exfalso. apply (str_compare_irrefl a). now apply Ha.
    + destruct (proj2 (Hm x) (or_intror Hx)) as [E|Hin]; [|exact Hin].
      subst x. exfalso. apply (str_compare_irrefl a). now apply Hb.
Qed.

(** X6.  The result of a scan depends on the set of names found alone: not on
    the order of the paragraphs, on how often a name occurs, on whether it
    stands in the body or in a table, nor on how the text is cut into
    runs. *)
Theorem scan_depends_on_names_only (doc doc' : document) :
  (forall n, found_in (all_paragraphs doc) n
             <-> found_in (all_paragraphs doc') n) ->
  extract_placeholders doc = extract_placeholders doc'.
Proof.
  intros H. apply strictly_sorted_unique.
  - apply sorted_strict; [apply sorted_StronglySorted | apply extract_placeholders_NoDup].
  - apply sorted_strict; [apply sorted_StronglySorted | apply extract_placeholders_NoDup].
  - intros x. now rewrite !extract_placeholders_In.
Qed.

Lemma scan_depends_witness :
  extract_placeholders
    (mkDoc [mkPara [InRun (mkRun (py "[B] [A] [B]") 0)]] [])
  = extract_placeholders
      (mkDoc [mkPara [InRun (mkRun (py "[") 0); InRun (mkRun (py "A]") 1)]]
             [mkTable [mkRow [mkCell [mkPara [InRun (mkRun (py "[B]") 0)]]]]]).
Proof.
  apply scan_depends_on_names_only. intros n.
  assert (E1 : forall p, In p (all_paragraphs
                 (mkDoc [mkPara [InRun (mkRun (py "[B] [A] [B]") 0)]] [])) ->
               findall (text p) = [py "B"; py "A"; py "B"]).
  { intros p [<-|[]]. vm_compute. reflexivity. }
  unfold found_in. split.
  - intros (p & Hp & Hn). rewrite (E1 p Hp) in Hn.
    destruct Hn as [<-|[<-|[<-|[]]]].
    + exists (mkPara [InRun (mkRun (py "[B]") 0)]). split; [right; now left|].
      vm_compute. now left.
    + exists (mkPara [InRun (mkRun (py "[") 0); InRun (mkRun (py "A]") 1)]).
      split; [now left|]. vm_compute. now left.
    + exists (mkPara [InRun (mkRun (py "[B]") 0)]). split; [right; now left|].
      vm_compute. now left.
  - intros (p & Hp & Hn). exists (mkPara [InRun (mkRun (py "[B] [A] [B]") 0)]).
    split; [now left|].
    destruct Hp as [<-|[<-|[]]]; vm_compute in Hn;
      destruct Hn as [<-|[]]; vm_compute; tauto.
Defined.

(** ** The substitutor *)

Lemma replace_in_paragraph_absent (values : dict) (p : paragraph) :
  (forall r k, In r (runs p) -> In k (keys values) ->
               contains (bracketed k) (run_text r) = false) ->
  replace_in_paragraph values p = p.
Proof.
  intros H. unfold replace_in_paragraph. destruct (search (text p)); [|reflexivity].
  unfold replace_in_runs. rewrite map_fixed; [now destruct p|].
  intros [[t st]|rs] Hi; [|reflexivity].
  unfold replace_in_inline, replace_in_run. simpl. do 2 f_equal.
  apply replace_in_text_absent. intros k Hk.
  apply (H (mkRun t st)); [|exact Hk]. now apply in_runs.
Qed.

(** X7.  A Value Set none of whose tokens stands in a run, the empty one among
    them, leaves the document as it is. *)
Theorem fill_without_occurrence (values : dict) (doc : document) :
  (forall p r k, In p (all_paragraphs doc) -> In r (runs p) ->
                 In k (keys values) ->
                 contains (bracketed k) (run_text r) = false) ->
  fill_template values doc = doc.
Proof.
  intros H. apply fill_template_fixed.
  intros p Hin. apply replace_in_paragraph_absent. intros r k. now apply H.
Qed.

Lemma fill_without_occurrence_witness :
  fill_template [(py "Salary", py "1")] doc_letter = doc_letter.
Proof.
  apply fill_without_occurrence. intros p r k Hp Hr [<-|[]].
  vm_compute in Hp.
  repeat (destruct Hp as [Hp|Hp];
          [subst p; vm_compute in Hr;
           repeat (destruct Hr as [Hr|Hr]; [subst r; vm_compute; reflexivity|]);
           destruct Hr|]).
  destruct Hp.
Defined.

Lemma dict_get_key (k v : str) (d : dict) :
  dict_get k d = Some v -> In k (keys d).
Proof.
  induction d as [|[k' v'] d IH]; simpl; [discriminate|].
  destruct (str_eq_dec k k') as [->|_]; auto.
Qed.

(** X9.  For names and values free of [LB]: a token that stands in a run behind
    a text without [LB] is replaced by the value of its name, and the loop
    carries on behind it. *)
Theorem fill_replaces_whole_token (values : dict) (n v a b : str) :
  (forall k, In k (keys values) -> valid_name k /\ ~ In LB k) ->
  (forall k u, In (k, u) values -> ~ In LB u) ->
  dict_get n values = Some v -> ~ In LB a ->
  replace_in_text values (a ++ bracketed n ++ b)
  = a ++ v ++ replace_in_text values b.
Proof.
  intros Hkeys Hvals Hget Ha. rewrite replace_in_text_pass by exact Ha. f_equal.
  destruct (Hkeys n (dict_get_key _ _ _ Hget)) as [[_ Hn] Hl].
  revert b Hkeys Hvals Hget.
  induction values as [|[k v0] vals IH]; intros b Hkeys Hvals Hget;
    [discriminate Hget|].
  simpl in Hget. rewrite !replace_in_text_cons.
  destruct (str_eq_dec n k) as [->|Hnk].
  - injection Hget as ->. rewrite replace_hit by apply bracketed_nonempty.
    apply replace_in_text_pass. apply (Hvals k). now left.
  - rewrite token_skip; auto.
    + apply IH; auto.
      * intros k' Hk'. apply Hkeys. now right.
      * intros k' u Hk'. apply (Hvals k'). now right.
    + destruct (Hkeys k) as [[_ Hk] _]; [now left | exact Hk].
Qed.

Lemma fill_replaces_witness :
  replace_in_text values_dear (py "Dear [Company Name], ... [Date]")
  = py "Dear Globex" ++ replace_in_text values_dear (py ", ... [Date]").
Proof.
  apply (fill_replaces_whole_token values_dear (py "Company Name") (py "Globex")
           (py "Dear ") (py ", ... [Date]")).
  - intros k [<-|[<-|[]]]; vm_compute; intuition discriminate.
  - intros k u [[= <- <-]|[[= <- <-]|[]]]; vm_compute; intuition discriminate.
  - reflexivity.
  - vm_compute. intuition discriminate.
Defined.

(** ** The value collector *)

Lemma prompt_loop_eof (placeholders : list str) :
  forall (acc : dict) (w : world),
  length (stdin w) < length (prompted placeholders) ->
  exists w',
    prompt_loop placeholders acc w = (Raise EOFError, w')
    /\ stdin w' = [] /\ tmpdir w' = tmpdir w /\ outdir w' = outdir w
    /\ prompts_of (stdout w')
       = prompts_of (stdout w)
         ++ map prompt_msg (firstn (S (length (stdin w))) (prompted placeholders)).
Proof.
  induction placeholders as [|k ps IH]; intros acc w Hlen; [simpl in Hlen; lia|].
  destruct (is_date_dec k) as [[Ek [e Ee]]|[Ek [e Ee]]];
    cbn [prompt_loop prompted filter] in Hlen |- *;
    rewrite Ee; rewrite Ek in Hlen |- *; cbn [negb] in Hlen |- *;
    fold (prompted ps) in Hlen |- *.
  - unfold bind at 1 2 3, today, print, ret. cbn beta iota.
    destruct (IH (dict_set k (clock w) acc)
                 (mkWorld (stdin w)
                    (stdout w ++ [Print (py "  " ++ k ++ py ": " ++ clock w ++ py " (auto)")])
                    (clock w) (tmpdir w) (outdir w)))
      as (w' & Hrun & Hin & Ht & Ho & Hp); [exact Hlen|].
    exists w'. cbn [stdin clock stdout tmpdir outdir] in *.
    rewrite Hrun. repeat split; auto.
    rewrite Hp, prompts_of_app. simpl. now rewrite app_nil_r.
  - unfold bind at 1 2, input, ret. cbn beta iota.
    destruct (stdin w) as [|line more]; cbn beta iota.
    + eexists. split; [reflexivity|]. cbn [stdin clock stdout tmpdir outdir].
      repeat split. rewrite prompts_of_app. reflexivity.
    + destruct (IH (dict_set k (strip line) acc)
                   (mkWorld more (stdout w ++ [Prompt (py "  " ++ k ++ py ": ")])
                      (clock w) (tmpdir w) (outdir w)))
        as (w' & Hrun & Hin & Ht & Ho & Hp); [simpl in *; lia|].
      exists w'. cbn [stdin clock stdout tmpdir outdir] in *.
      rewrite Hrun. repeat split; auto.
      rewrite Hp, prompts_of_app. simpl. now rewrite <- app_assoc.
Qed.

(** X10.  When fewer lines are typed than names are asked for, the collector
    returns no mapping: it raises [EOFError], after it has read every line
    and written one prompt more than there were lines, and it leaves both
    directories as they were. *)
Theorem prompt_for_values_eof (placeholders : list str) (w : world) :
  length (stdin w) < length (prompted placeholders) ->
  exists w',
    prompt_for_values placeholders w = (Raise EOFError, w')
    /\ stdin w' = [] /\ tmpdir w' = tmpdir w /\ outdir w' = outdir w
    /\ prompts_of (stdout w')
       = prompts_of (stdout w)
         ++ map prompt_msg (firstn (S (length (stdin w))) (prompted placeholders)).
Proof.
  intros Hlen. unfold prompt_for_values, bind at 1 2, print. cbn beta iota.
  destruct (prompt_loop_eof placeholders []
              (mkWorld (stdin w)
                 ((stdout w ++ [Print (NL :: py "Enter values for each field:")])
                    ++ [Print (repeat "-"%char 40)])
                 (clock w) (tmpdir w) (outdir w)))
    as (w' & Hrun & Hin & Ht & Ho & Hp); [exact Hlen|].
  cbn [stdin clock stdout tmpdir outdir] in *.
  exists w'. split; [exact Hrun|]. repeat split; auto.
  rewrite Hp, !prompts_of_app. simpl. now rewrite !app_nil_r.
Qed.

Lemma prompt_for_values_eof_witness :
  exists w',
    prompt_for_values [py "Company Name"; py "Date"; py "Role"]
                      (mkWorld [py "Globex"] [] (py "2024-01-01") [] [])
    = (Raise EOFError, w')
    /\ prompts_of (stdout w') = [py "  Company Name: "; py "  Role: "].
Proof.
  destruct (prompt_for_values_eof [py "Company Name"; py "Date"; py "Role"]
              (mkWorld [py "Globex"] [] (py "2024-01-01") [] []))
    as (w' & Hrun & _ & _ & _ & Hp).
  - vm_compute. repeat constructor.
  - exists w'. split; [exact Hrun|]. rewrite Hp. vm_compute. reflexivity.
Defined.

(** ** The export pipeline *)

Section PipelineFrame.

Variable rnd : str.
Variable docx_save : world -> document -> exn + str.
Variable soffice : world -> str -> soffice_outcome.
Variable rename_replaces : bool.
Variable exists_error : str -> option exn.
Variable rename_error : str -> option exn.

Lemma remove_temp_frame (temp_docx : str) (w : world) :
  exists w',
    remove_temp temp_docx w = (Ret tt, w')
    /\ stdin w' = stdin w /\ clock w' = clock w
    /\ outdir w' = outdir w /\ stdout w' = stdout w
    /\ forall f, f <> temp_docx ->
                 dir_read f (tmpdir w') = dir_read f (tmpdir w).
Proof.
  unfold remove_temp, bind, get_world, set_tmpdir, ret.
  destruct (dir_exists temp_docx (tmpdir w)).
  - eexists. split; [reflexivity|]. cbn [stdin clock stdout tmpdir outdir].
    repeat split. intros f Hf. apply dir_read_remove_other. congruence.
  - exists w. repeat split.
Qed.

Lemma world_converted_tmpdir (bytes : str) (written : option str) (w : world) :
  tmpdir (world_converted rnd bytes written w)
  = dir_write (temp_docx_name rnd) bytes (dir_write (temp_docx_name rnd) [] (tmpdir w))
  /\ stdin (world_converted rnd bytes written w) = stdin w
  /\ clock (world_converted rnd bytes written w) = clock w
  /\ outdir (world_converted rnd bytes written w)
     = match written with
       | Some pdf => dir_write (temp_pdf_name rnd) pdf (outdir w)
       | None => outdir w
       end.
Proof. destruct written; repeat split. Qed.

(** What the [try] block leaves alone, however it ends. *)
Lemma try_end_frame (doc : document) (sc : str) (w : world)
    (r : outcome (option str)) (w1 : world) :
  try_end rnd docx_save soffice exists_error rename_error doc sc w r w1 ->
  stdin w1 = stdin w /\ clock w1 = clock w
  /\ (forall f, f <> temp_docx_name rnd ->
                dir_read f (tmpdir w1) = dir_read f (tmpdir w))
  /\ (forall f c, f <> temp_pdf_name rnd ->
                  dir_read f (outdir w) = Some c ->
                  dir_read f (outdir w1) = Some c).
Proof.
  assert (Htmp : forall bytes f, f <> (temp_docx_name rnd) ->
            dir_read f (dir_write (temp_docx_name rnd) bytes
                          (dir_write (temp_docx_name rnd) [] (tmpdir w)))
            = dir_read f (tmpdir w)).
  { intros bytes f Hf. rewrite !dir_read_write_other; congruence. }
  assert (Hconv : forall bytes written,
            stdin (world_converted rnd bytes written w) = stdin w
            /\ clock (world_converted rnd bytes written w) = clock w
            /\ (forall f, f <> temp_docx_name rnd ->
                  dir_read f (tmpdir (world_converted rnd bytes written w))
                  = dir_read f (tmpdir w))
            /\ (forall f c, f <> temp_pdf_name rnd ->
                  dir_read f (outdir w) = Some c ->
                  dir_read f (outdir (world_converted rnd bytes written w))
                  = Some c)).
  { intros bytes written.
    destruct (world_converted_tmpdir bytes written w) as (Et & Ei & Ec & Eo).
    split; [exact Ei|]. split; [exact Ec|]. split.
    - intros f Hf. rewrite Et. now apply Htmp.
    - intros f c Hf Hfc. rewrite Eo. destruct written as [pdf|]; [|exact Hfc].
      rewrite dir_read_write_other; auto. }
  destruct 1 as [e Hs|bytes e Hs Hc|bytes rc err written Hs Hc Hrc
                |bytes err written tried e Hs Hc He
                |bytes err written Hs Hc Hno
                |bytes err written final e Hs Hc Hyes Hch He
                |bytes err written final content Hs Hc Hread Hch _ _].
  - repeat split; auto. intros f Hf. apply dir_read_write_other. congruence.
  - repeat split; auto. intros f Hf. now apply Htmp.
  - exact (Hconv bytes written).
  - exact (Hconv bytes written).
  - exact (Hconv bytes written).
  - exact (Hconv bytes written).
  - destruct (Hconv bytes written) as (Hi & Hcl & Ht & Ho).
    split; [exact Hi|]. split; [exact Hcl|]. split; [exact Ht|].
    cbn [outdir with_outdir]. intros f c Hf Hfc.
    pose proof (Ho f c Hf Hfc) as Hd.
    assert (Hff : final <> f).
    { intros ->. destruct Hch as [Hfree _].
      apply dir_read_None in Hfree. congruence. }
    rewrite dir_read_write_other by exact Hff.
    rewrite dir_read_remove_other; auto.
Qed.

Lemma save_as_pdf_effects (doc : document) (company_name : str) (w : world) :
  exists r w',
    save_as_pdf rnd docx_save soffice rename_replaces exists_error rename_error
      doc company_name w = (r, w')
    /\ r <> Diverge
    /\ stdin w' = stdin w /\ clock w' = clock w
    /\ (forall f, f <> temp_docx_name rnd ->
                  dir_read f (tmpdir w') = dir_read f (tmpdir w))
    /\ (forall f c, f <> temp_pdf_name rnd ->
                    dir_read f (outdir w) = Some c ->
                    dir_read f (outdir w') = Some c).
Proof.
  destruct (convert_and_rename_ends rnd docx_save soffice rename_replaces
              exists_error rename_error doc (safe_company_of company_name) w)
    as (r & w1 & Hbody & Hend).
  pose proof (try_end_ends _ _ _ _ _ _ _ _ _ _ Hend) as Hr.
  destruct (try_end_frame _ _ _ _ _ Hend) as (Hi & Hc & Ht & Ho).
  destruct (remove_temp_frame (temp_docx_name rnd) w1)
    as (w' & Hrm & Hi' & Hc' & Ho' & _ & Ht').
  exists r, w'. rewrite save_as_pdf_unfold.
  rewrite (try_finally_run _ _ _ _ _ _ Hbody Hr Hrm).
  split; [reflexivity|]. split; [exact Hr|].
  split; [congruence|]. split; [congruence|]. split.
  - intros f Hf. rewrite Ht' by exact Hf. now apply Ht.
  - intros f c Hf Hfc. rewrite Ho'. now apply Ho.
Qed.

(** X11.  Whatever way the export ends, it has read nothing from the terminal
    and has not touched the clock; every other file of the temporary
    directory holds what it held, and so does every file of the output
    directory other than one with the name the converter writes to. *)
Theorem save_as_pdf_frame (doc : document) (company_name : str) (w : world) :
  exists r w',
    save_as_pdf rnd docx_save soffice rename_replaces exists_error rename_error
      doc company_name w = (r, w')
    /\ stdin w' = stdin w /\ clock w' = clock w
    /\ (forall f, f <> temp_docx_name rnd ->
                  dir_read f (tmpdir w') = dir_read f (tmpdir w))
    /\ (forall f c, f <> temp_pdf_name rnd ->
                    dir_read f (outdir w) = Some c ->
                    dir_read f (outdir w') = Some c).
Proof.
  destruct (save_as_pdf_effects doc company_name w)
    as (r & w' & Hrun & _ & Hin & Hcl & Htmp & Hout).
  exists r, w'. split; [exact Hrun|]. split; [exact Hin|].
  split; [exact Hcl|]. split; [exact Htmp | exact Hout].
Qed.

(** X12.  An exception of [doc.save], or of starting the converter, is not
    caught: [save_as_pdf] raises it, having printed nothing and with the
    output directory as it was. *)
Theorem save_as_pdf_propagates (doc : document) (company_name : str) (w : world)
    (e : exn) :
  (docx_save (world_temp rnd w) doc = inl e
   \/ exists bytes, docx_save (world_temp rnd w) doc = inr bytes
        /\ soffice (world_saved rnd bytes w) (temp_docx_name rnd) = LaunchError e) ->
  exists w',
    save_as_pdf rnd docx_save soffice rename_replaces exists_error rename_error
      doc company_name w
    = (Raise e, w')
    /\ outdir w' = outdir w /\ stdout w' = stdout w
    /\ dir_exists (temp_docx_name rnd) (tmpdir w') = false.
Proof.
  intros H.
  pose proof (convert_and_rename_run rnd docx_save soffice rename_replaces
                exists_error rename_error doc
                (safe_company_of company_name) w) as Hrun.
  cbv zeta in Hrun.
  destruct H as [Hs|(bytes & Hs & Hc)]; rewrite Hs in Hrun; [|rewrite Hc in Hrun];
    destruct (save_as_pdf_finally rnd docx_save soffice rename_replaces
                exists_error rename_error doc
                company_name w _ _ Hrun) as (w' & Hsave & Hgone & Ho & Hp);
    try discriminate; exists w'; auto.
Qed.

End PipelineFrame.

Lemma save_as_pdf_frame_witness :
  exists r w',
    save_as_pdf env_rnd save_ok soffice_ok false no_fs_error no_fs_error
                doc_dear (py "Acme") world_acme
    = (r, w')
    /\ dir_read (py "CoverLetter_Acme_2024-01-01.pdf") (outdir w')
       = Some (py "%PDF-old").
Proof.
  destruct (save_as_pdf_frame env_rnd save_ok soffice_ok false
              no_fs_error no_fs_error doc_dear
              (py "Acme") world_acme) as (r & w' & Hrun & _ & _ & _ & Hkeep).
  exists r, w'. split; [exact Hrun|]. apply Hkeep; [|reflexivity].
  intros H. vm_compute in H. discriminate H.
Defined.

Lemma save_as_pdf_propagates_witness :
  exists w',
    save_as_pdf env_rnd save_ok soffice_missing false no_fs_error no_fs_error
                doc_dear (py "Acme")
                world_acme
    = (Raise (Error (py "FileNotFoundError")), w')
    /\ outdir w' = outdir world_acme.
Proof.
  destruct (save_as_pdf_propagates env_rnd save_ok soffice_missing false
              no_fs_error no_fs_error doc_dear
              (py "Acme") world_acme (Error (py "FileNotFoundError")))
    as (w' & Hrun & Ho & _).
  - right. exists (py "PK"). split; reflexivity.
  - exists w'. split; [exact Hrun | exact Ho].
Defined.

(* ===================================================================== *)
(** ** The menu *)
(* ===================================================================== *)

Lemma strip_prefix_char (c x : ascii) (s : str) :
  strip_prefix [c] (x :: s) = if (c =? x)%char then Some s else None.
Proof. reflexivity. Qed.

(** Replacing a character by a text without it leaves no occurrence. *)
Lemma replace_char_gone (c : ascii) (new s : str) :
  ~ In c new -> ~ In c (replace [c] new s).
Proof.
  intros Hn. revert s.
  apply (replace_scan_ind [c] ltac:(discriminate)).
  - rewrite replace_nil. intros [].
  - intros x s rest E IH. rewrite replace_cons, E.
    intros H. apply in_app_or in H. tauto.
  - intros x s E IH. rewrite replace_cons, E.
    rewrite strip_prefix_char in E.
    destruct (Ascii.eqb_spec c x) as [->|Hx]; [discriminate E|].
    intros [H|H]; [now apply Hx | now apply IH].
Qed.

(** X13.  The name a template is listed under holds no underscore, whatever
    the file is called. *)
Theorem display_name_no_underscore (stem : str) :
  ~ In "_"%char (display_name stem).
Proof.
  unfold display_name. apply (replace_char_gone "_"%char).
  intros [H|[]]. discriminate H.
Qed.

Ltac split_digit H :=
  apply andb_true_iff in H; destruct H as [?Hlo ?Hhi];
  apply N.leb_le in Hlo; apply N.leb_le in Hhi.

Ltac decide_codes :=
  repeat match goal with
         | |- context [(?a <=? ?b)%N] => destruct (N.leb_spec a b)
         | |- context [(?a =? ?b)%N] => destruct (N.eqb_spec a b)
         end;
  try lia; try reflexivity.

Lemma digit_not_space (c : ascii) : is_digit c = true -> isspace c = false.
Proof.
  unfold is_digit, isspace. intros H. cbv zeta in *. split_digit H.
  decide_codes.
Qed.

Lemma digit_lower (c : ascii) : is_digit c = true -> lower_char c = c.
Proof.
  unfold is_digit, lower_char. intros H. cbv zeta in *. split_digit H.
  decide_codes.
Qed.

Lemma digit_not_sign (c : ascii) :
  is_digit c = true -> (c =? "-")%char = false /\ (c =? "+")%char = false.
Proof.
  intros H. split.
  - destruct (Ascii.eqb_spec c "-") as [->|]; [discriminate H | reflexivity].
  - destruct (Ascii.eqb_spec c "+") as [->|]; [discriminate H | reflexivity].
Qed.

Lemma lstrip_spaces (ws s : str) :
  Forall (fun c => isspace c = true) ws -> lstrip (ws ++ s) = lstrip s.
Proof.
  induction 1 as [|c ws Hc _ IH]; [reflexivity|]. simpl. now rewrite Hc.
Qed.

Lemma lstrip_no_space (s : str) :
  Forall (fun c => isspace c = false) s -> lstrip s = s.
Proof. intros H. destruct H as [|c s Hc _]; [reflexivity|]. simpl. now rewrite Hc. Qed.

Lemma lstrip_body (d ws : str) :
  Forall (fun c => isspace c = false) d ->
  Forall (fun c => isspace c = true) ws ->
  lstrip (d ++ ws) = match d with [] => [] | _ :: _ => d ++ ws end.
Proof.
  intros Hd Hw. destruct Hd as [|c d Hc _].
  - simpl. rewrite <- (app_nil_r ws). now rewrite lstrip_spaces.
  - simpl. now rewrite Hc.
Qed.

(** Blanks around a text without blanks are all that [strip] removes. *)
Lemma strip_padded (ws1 d ws2 : str) :
  Forall (fun c => isspace c = true) ws1 ->
  Forall (fun c => isspace c = true) ws2 ->
  Forall (fun c => isspace c = false) d ->
  strip (ws1 ++ d ++ ws2) = d.
Proof.
  intros H1 H2 Hd. unfold strip, rstrip.
  rewrite (lstrip_spaces ws1 _ H1), (lstrip_body d ws2 Hd H2).
  destruct d as [|c d]; [reflexivity|].
  rewrite rev_app_distr, (lstrip_spaces (rev ws2)).
  - rewrite lstrip_no_space; [apply rev_involutive|].
    apply Forall_rev. exact Hd.
  - apply Forall_rev. exact H2.
Qed.

Lemma parse_digits_uint (d : Decimal.uint) :
  forall acc,
  parse_digits (py (DecimalString.NilEmpty.string_of_uint d)) acc true
  = Some (Nat.of_uint_acc d acc).
Proof.
  induction d; intros acc; [reflexivity| | | | | | | | | | ];
    simpl DecimalString.NilEmpty.string_of_uint; simpl Nat.of_uint_acc;
    rewrite Nat.tail_mul_spec;
    match goal with
    | |- parse_digits (py (String ?c ?s)) ?a true = _ =>
        change (parse_digits (py (String c s)) a true)
          with (parse_digits (py s) (10 * a + digit_value c) true)
    end;
    rewrite IHd; f_equal; f_equal;
    match goal with
    | |- context [digit_value ?c] =>
        let v := eval vm_compute in (digit_value c) in
        change (digit_value c) with v
    end; lia.
Qed.

Lemma to_uint_not_nil (n : nat) : Nat.to_uint n <> Decimal.Nil.
Proof.
  intros E. pose proof (DecimalNat.Unsigned.of_to n) as H.
  rewrite E in H. cbn in H. subst n. discriminate E.
Qed.

(** Reading back the decimal numeral of a number gives the number. *)
Lemma parse_digits_str_of_nat (i : nat) :
  parse_digits (str_of_nat i) 0 false = Some i.
Proof.
  unfold str_of_nat. pose proof (DecimalNat.Unsigned.of_to i) as H.
  pose proof (to_uint_not_nil i) as Hn.
  destruct (Nat.to_uint i) as [|d|d|d|d|d|d|d|d|d|d] eqn:E;
    [congruence| | | | | | | | | | ];
    rewrite <- H;
    simpl DecimalString.NilEmpty.string_of_uint;
    match goal with
    | |- parse_digits (py (String ?c ?s)) 0 false = _ =>
        change (parse_digits (py (String c s)) 0 false)
          with (parse_digits (py s) (10 * 0 + digit_value c) true)
    end;
    rewrite parse_digits_uint; reflexivity.
Qed.

Lemma str_of_nat_no_space (i : nat) :
  Forall (fun c => isspace c = false) (str_of_nat i).
Proof.
  eapply Forall_impl; [|apply str_of_nat_digits]. exact digit_not_space.
Qed.

Lemma lower_str_of_nat (i : nat) : lower (str_of_nat i) = str_of_nat i.
Proof.
  unfold lower. apply map_fixed. intros c Hc. apply digit_lower.
  pose proof (str_of_nat_digits i) as H. rewrite Forall_forall in H. auto.
Qed.

Lemma py_int_str_of_nat (max_str_digits i : nat) :
  max_str_digits = 0 \/ length (str_of_nat i) <= max_str_digits ->
  py_int max_str_digits (str_of_nat i) = Some (Z.of_nat i).
Proof.
  intros Hmax. unfold py_int.
  pose proof (strip_padded [] (str_of_nat i) [] (Forall_nil _) (Forall_nil _)
                (str_of_nat_no_space i)) as Hs.
  rewrite app_nil_r in Hs. simpl in Hs. rewrite Hs.
  pose proof (parse_digits_str_of_nat i) as Hp.
  pose proof (str_of_nat_digits i) as Hd.
  assert (Hc : count_digits (str_of_nat i) = length (str_of_nat i)).
  { unfold count_digits. now rewrite filter_all. }
  destruct (str_of_nat i) as [|c r] eqn:E; [discriminate Hp|].
  assert (Hc1 : is_digit c = true) by now inversion Hd.
  destruct (digit_not_sign c Hc1) as [-> ->].
  rewrite Hp, Hc.
  assert (Hok : (0 <? max_str_digits) && (max_str_digits <? length (c :: r))
                = false).
  { destruct Hmax as [->|Hle]; [reflexivity|].
    apply andb_false_iff. right. apply Nat.ltb_ge. exact Hle. }
  now rewrite Hok.
Qed.

(** X14.  A selection is made only when the line, trimmed and in lower case,
    reads as an integer from 1 to the number of templates listed; the
    index chosen is that integer less one, so within the list. *)
Theorem select_template_in_range (max_str_digits : nat) (line : str)
    (n_templates idx : nat) :
  select_template max_str_digits line n_templates = Chosen idx ->
  idx < n_templates
  /\ py_int max_str_digits (lower (strip line)) = Some (Z.of_nat (S idx)).
Proof.
  unfold select_template. cbv zeta.
  destruct (str_eq_dec (lower (strip line)) (py "exit")); [discriminate|].
  destruct (py_int max_str_digits (lower (strip line))) as [v|];
    [|discriminate].
  destruct ((0 <=? v - 1)%Z && (v - 1 <? Z.of_nat n_templates)%Z) eqn:E;
    [|discriminate].
  intros [= <-]. apply andb_true_iff in E. destruct E as [E1 E2].
  apply Z.leb_le in E1. apply Z.ltb_lt in E2. split; [lia|].
  f_equal. lia.
Qed.

Lemma select_template_in_range_witness :
  1 < 3 /\ py_int 4300 (lower (strip (py " +0_2 "))) = Some (Z.of_nat 2).
Proof.
  apply (select_template_in_range 4300 (py " +0_2 ") 3 1).
  vm_compute. reflexivity.
Defined.

(** X15.  Typing the number a template is listed under, with or without blanks
    around it, selects that template. *)
Theorem select_template_menu_number (max_str_digits i n_templates : nat)
    (ws1 ws2 : str) :
  1 <= i <= n_templates ->
  max_str_digits = 0 \/ length (str_of_nat i) <= max_str_digits ->
  Forall (fun c => isspace c = true) ws1 ->
  Forall (fun c => isspace c = true) ws2 ->
  select_template max_str_digits (ws1 ++ str_of_nat i ++ ws2) n_templates
  = Chosen (i - 1).
Proof.
  intros Hi Hmax H1 H2. unfold select_template. cbv zeta.
  rewrite (strip_padded ws1 (str_of_nat i) ws2 H1 H2 (str_of_nat_no_space i)).
  rewrite lower_str_of_nat.
  destruct (str_eq_dec (str_of_nat i) (py "exit")) as [E|_].
  - pose proof (str_of_nat_digits i) as Hd. rewrite E in Hd.
    inversion Hd as [|c r Hc _]. discriminate Hc.
  - rewrite (py_int_str_of_nat max_str_digits i Hmax).
    assert (Hr : ((0 <=? Z.of_nat i - 1) && (Z.of_nat i - 1 <? Z.of_nat n_templates))%Z
                 = true).
    { apply andb_true_iff. split; [apply Z.leb_le | apply Z.ltb_lt]; lia. }
    rewrite Hr. f_equal. lia.
Qed.

Lemma select_template_menu_witness :
  select_template 4300 (py "  12 ") 20 = Chosen 11.
Proof.
  apply (select_template_menu_number 4300 12 20 (py "  ") (py " ")).
  - lia.
  - right. apply Nat.leb_le. vm_compute. reflexivity.
  - repeat constructor.
  - repeat constructor.
Defined.

(* ===================================================================== *)
(** ** One round over a template *)
(* ===================================================================== *)







Section RoundFacts.

Variable rnd : str.
Variable docx_save : world -> document -> exn + str.
Variable soffice : world -> str -> soffice_outcome.
Variable rename_replaces : bool.
Variable exists_error : str -> option exn.
Variable rename_error : str -> option exn.
Variable path_str : str -> str.


(** X16.  A template in which no paragraph opens a pair is passed over: the
    round prints the one message, asks nothing and writes no file. *)
Theorem process_template_skips (doc : document) (w : world) :
  (forall p, In p (all_paragraphs doc) -> ~ opens_pair (text p)) ->
  process_template rnd docx_save soffice rename_replaces
    exists_error rename_error path_str doc w
  = (Ret tt,
     with_print (NL :: py "No placeholders found in this template.") w).
Proof.
  intros H. unfold process_template. cbv zeta.
  rewrite (extract_placeholders_nil doc); [reflexivity|].
  intros p Hp. destruct (findall (text p)) as [|n l] eqn:En; [reflexivity|].
  exfalso. apply (H p Hp), findall_nonempty_opens. rewrite En. discriminate.
Qed.


End RoundFacts.

Lemma process_template_skips_witness :
  process_template env_rnd save_ok soffice_ok false no_fs_error no_fs_error
                   (fun name => name) doc_plain world_typed
  = (Ret tt,
     with_print (NL :: py "No placeholders found in this template.")
                world_typed).
Proof.
  apply (process_template_skips env_rnd save_ok soffice_ok false
           no_fs_error no_fs_error (fun name => name) doc_plain world_typed).
  intros p Hp Ho. apply findall_nonempty_opens in Ho. apply Ho.
  unfold doc_plain, all_paragraphs in Hp. simpl in Hp.
  destruct Hp as [<-|[<-|[]]]; vm_compute; reflexivity.
Defined.

